(** * libtransmission/crypto-utils.c: a shallow embedding

    The functions of [crypto-utils.c] (and the one caller in
    [crypto-utils-openssl.c] that matters here) are transcribed as Rocq
    functions over byte buffers.  C integers are [Z] with the wrap-around of
    their type written out; a buffer is the [list byte] of the bytes a
    pointer may access, and every access is bounds-checked, so that a read
    or a write outside a buffer shows up as [Fault]. *)

From Stdlib Require Import ZArith Lia Bool.
From Stdlib Require Import Strings.Byte.
From stdpp Require Import base tactics option list.

Local Open Scope Z_scope.

(** ** Machine integers *)

(** [size_t] has 64 bits and [int] 32, as on the LP64 platforms the library
    is built for. *)
Definition SIZE_BITS : Z := 64.
Definition SIZE_MOD : Z := 2 ^ SIZE_BITS.

(** Arithmetic on [size_t] is modulo [SIZE_MOD]. *)
Definition size_wrap (x : Z) : Z := x mod SIZE_MOD.

Definition INT_MIN : Z := - 2 ^ 31.


(** ** Bytes *)

Definition byte_to_Z (b : byte) : Z := Z.of_N (Byte.to_N b).

(** The conversion [(uint8_t) x]. *)
Definition Z_to_byte (x : Z) : byte :=
  match Byte.of_N (Z.to_N (x mod 256)) with
  | Some b => b
  | None => x00
  end.

Definition NUL : byte := x00.

(** ** Outcomes of a run *)

Inductive outcome (A : Type) : Type :=
  | Ok (a : A)      (* normal return *)
  | Fault           (* an access outside a buffer *)
  | AssertFail      (* an [assert] that does not hold *)
  | OutOfFuel.      (* the iteration bound of a modelled loop was hit *)

Arguments Ok {A} a.
Arguments Fault {A}.
Arguments AssertFail {A}.
Arguments OutOfFuel {A}.

Definition bind {A B} (m : outcome A) (f : A -> outcome B) : outcome B :=
  match m with
  | Ok a => f a
  | Fault => Fault
  | AssertFail => AssertFail
  | OutOfFuel => OutOfFuel
  end.

Notation "'do' x <- m ; k" := (bind m (fun x => k))
  (at level 10, x name, m at level 100, k at level 200).

(** ** Buffers *)

Definition in_bounds {A} (buf : list A) (i : Z) : bool :=
  (0 <=? i) && (i <? Z.of_nat (length buf)).

(** [p[i]] as an rvalue. *)
Definition load {A} (buf : list A) (i : Z) : outcome A :=
  if in_bounds buf i then
    match buf !! Z.to_nat i with
    | Some x => Ok x
    | None => Fault
    end
  else Fault.

(** [p[i] = v]. *)
Definition store {A} (buf : list A) (i : Z) (v : A) : outcome (list A) :=
  if in_bounds buf i then Ok (<[Z.to_nat i := v]> buf) else Fault.

(** [p[i] |= v] on a byte buffer. *)
Definition store_or (buf : list byte) (i : Z) (v : Z) : outcome (list byte) :=
  do old <- load buf i;
  store buf i (Z_to_byte (Z.lor (byte_to_Z old) v)).

(** [memset (p + off, c, n)]. *)
Definition memset (buf : list byte) (off : Z) (c : byte) (n : Z)
  : outcome (list byte) :=
  if (0 <=? off) && (0 <=? n) && (off + n <=? Z.of_nat (length buf)) then
    Ok (take (Z.to_nat off) buf ++ replicate (Z.to_nat n) c
          ++ drop (Z.to_nat (off + n)) buf)
  else Fault.

(** The [n] bytes read by [memcpy] or [memmove] from [p + off]. *)
Definition read_bytes (buf : list byte) (off n : Z) : outcome (list byte) :=
  if (0 <=? off) && (0 <=? n) && (off + n <=? Z.of_nat (length buf)) then
    Ok (take (Z.to_nat n) (drop (Z.to_nat off) buf))
  else Fault.

(** The bytes written by [memcpy] or [memmove] to [p + off]. *)
Definition write_bytes (buf : list byte) (off : Z) (data : list byte)
  : outcome (list byte) :=
  if (0 <=? off) && (off + Z.of_nat (length data) <=? Z.of_nat (length buf)) then
    Ok (take (Z.to_nat off) buf ++ data
          ++ drop (Z.to_nat off + length data) buf)
  else Fault.

(** [memmove (p + dst, p + src, n)] inside one buffer: the source bytes are
    read before any is written, which is what makes overlap harmless. *)
Definition memmove (buf : list byte) (dst src n : Z) : outcome (list byte) :=
  do data <- read_bytes buf src n;
  write_bytes buf dst data.

(** ** Character constants and tables *)

Definition bytes_of_Zs (l : list Z) : list byte := map Z_to_byte l.

Definition CH_0 : Z := 48.       (* '0' *)
Definition CH_EQ : Z := 61.      (* '=' *)
Definition CH_LBRACE : Z := 123. (* '{' *)

(** ["ABCDEFGHIJKLMNOPQRSTUVWXYZ234567"], with the terminator of the string
    literal. *)
Definition base32_chars : list byte :=
  bytes_of_Zs
    [65;66;67;68;69;70;71;72;73;74;75;76;77;78;79;80;81;82;83;84;85;86;87;88;
     89;90;50;51;52;53;54;55;0].

Definition base32_lookup : list Z :=
  [0xFF;0xFF;0x1A;0x1B;0x1C;0x1D;0x1E;0x1F;
   0xFF;0xFF;0xFF;0xFF;0xFF;0xFF;0xFF;0xFF;
   0xFF;0x00;0x01;0x02;0x03;0x04;0x05;0x06;
   0x07;0x08;0x09;0x0A;0x0B;0x0C;0x0D;0x0E;
   0x0F;0x10;0x11;0x12;0x13;0x14;0x15;0x16;
   0x17;0x18;0x19;0xFF;0xFF;0xFF;0xFF;0xFF;
   0xFF;0x00;0x01;0x02;0x03;0x04;0x05;0x06;
   0x07;0x08;0x09;0x0A;0x0B;0x0C;0x0D;0x0E;
   0x0F;0x10;0x11;0x12;0x13;0x14;0x15;0x16;
   0x17;0x18;0x19;0xFF;0xFF;0xFF;0xFF;0xFF].

Definition base32_lookup_size : Z := Z.of_nat (length base32_lookup).

(** ** tr_base32_encode *)

(** The body of the [for] loop of [tr_base32_encode]; [o] counts the
    [++output_bytes] done so far.  The loop has no increment clause, so the
    model carries an iteration bound [fuel]. *)
Fixpoint encode_loop (fuel : nat) (input_bytes : list byte) (input_length : Z)
    (i index : Z) (output_bytes : list byte) (o : Z) : outcome (list byte) :=
  if negb (i <? input_length) then Ok output_bytes else
  match fuel with
  | O => OutOfFuel
  | S fuel' =>
    do curr <- load input_bytes i;
    let curr_byte := byte_to_Z curr in
    if 3 <? index then
      do next_byte <-
        (if i + 1 <? input_length
         then do b <- load input_bytes (i + 1); Ok (byte_to_Z b)
         else Ok 0);
      let digit := Z.land curr_byte (Z.shiftr 0xFF index) in
      let index := (index + 5) mod 8 in
      let digit := Z.shiftl digit index in
      let digit := Z.lor digit (Z.shiftr next_byte (8 - index)) in
      let i := i + 1 in
      do c <- load base32_chars digit;
      do output_bytes <- store output_bytes o c;
      encode_loop fuel' input_bytes input_length i index output_bytes (o + 1)
    else
      let digit := Z.land (Z.shiftr curr_byte (8 - (index + 5))) 0x1F in
      let index := (index + 5) mod 8 in
      let i := if index =? 0 then i + 1 else i in
      do c <- load base32_chars digit;
      do output_bytes <- store output_bytes o c;
      encode_loop fuel' input_bytes input_length i index output_bytes (o + 1)
  end.

(** A pointer argument is [None] when it is [NULL]; otherwise it carries the
    contents of what it points to.  The result gives the new contents of
    [*output] and of [*output_length], the only objects the function can
    write.  Every iteration consumes five of the [8 * input_length] input
    bits, which bounds the number of iterations. *)
Definition tr_base32_encode (input : list byte) (input_length : Z)
    (output : option (list byte)) (output_length : option Z)
  : outcome (option (list byte) * option Z) :=
  let my_output_length := size_wrap (input_length * 8 + 4) / 5 in
  let output_length :=
    match output_length with
    | Some _ => Some my_output_length
    | None => None
    end in
  match output with
  | None => Ok (None, output_length)
  | Some output_bytes =>
    do output_bytes <-
      encode_loop (Z.to_nat (8 * input_length)) input input_length 0 0
        output_bytes 0;
    Ok (Some output_bytes, output_length)
  end.

(** ** tr_base32_decode *)

(** [while (input_length > 0 && input_bytes[input_length - 1] == '=')
      --input_length;]
    The loop runs at most [input_length] times, which [n] counts down. *)
Fixpoint strip_padding (n : nat) (input_bytes : list byte) (input_length : Z)
  : outcome Z :=
  match n with
  | O => Ok input_length
  | S n' =>
    if 0 <? input_length then
      do c <- load input_bytes (input_length - 1);
      if byte_to_Z c =? CH_EQ
      then strip_padding n' input_bytes (input_length - 1)
      else Ok input_length
    else Ok input_length
  end.

(** The [for (...; i < input_length; ++i)] loop of [tr_base32_decode]:
    [n] is the number of iterations left, [input_length - i]. *)
Fixpoint decode_loop (n : nat) (input_bytes : list byte) (i index offset : Z)
    (my_output_length : Z) (output_bytes : list byte) : outcome (list byte) :=
  match n with
  | O => Ok output_bytes
  | S n' =>
    do c <- load input_bytes i;
    let lookup := size_wrap (byte_to_Z c - CH_0) in
    if base32_lookup_size <=? lookup then
      decode_loop n' input_bytes (i + 1) index offset my_output_length
        output_bytes
    else
      do digit <- load base32_lookup lookup;
      if digit =? 0xFF then
        decode_loop n' input_bytes (i + 1) index offset my_output_length
          output_bytes
      else if index <=? 3 then
        let index := (index + 5) mod 8 in
        if index =? 0 then
          do output_bytes <- store_or output_bytes offset digit;
          let offset := offset + 1 in
          if my_output_length <=? offset then Ok output_bytes
          else decode_loop n' input_bytes (i + 1) index offset
                 my_output_length output_bytes
        else
          do output_bytes <-
            store_or output_bytes offset (Z.shiftl digit (8 - index));
          decode_loop n' input_bytes (i + 1) index offset my_output_length
            output_bytes
      else
        let index := (index + 5) mod 8 in
        do output_bytes <-
          store_or output_bytes offset (Z.shiftr digit index);
        let offset := offset + 1 in
        if my_output_length <=? offset then Ok output_bytes
        else
          do output_bytes <-
            store_or output_bytes offset (Z.shiftl digit (8 - index));
          decode_loop n' input_bytes (i + 1) index offset my_output_length
            output_bytes
  end.

Definition tr_base32_decode (input : list byte) (input_length : Z)
    (output : option (list byte)) (output_length : option Z)
  : outcome (option (list byte) * option Z) :=
  do input_length <- strip_padding (Z.to_nat input_length) input input_length;
  let my_output_length := size_wrap (input_length * 5) / 8 in
  let output_length :=
    match output_length with
    | Some _ => Some my_output_length
    | None => None
    end in
  match output with
  | None => Ok (None, output_length)
  | Some output_bytes =>
    do output_bytes <- memset output_bytes 0 NUL my_output_length;
    do output_bytes <-
      decode_loop (Z.to_nat input_length) input 0 0 0 my_output_length
        output_bytes;
    Ok (Some output_bytes, output_length)
  end.

(** ** Devices for proofs by computation *)

(** Every byte, for case analyses done by computation. *)
Definition all_bytes : list byte :=
  map (fun n => Z_to_byte (Z.of_nat n)) (seq 0 256).

(** ** The digits the encoder emits *)

(** The digit of an iteration that spans a byte boundary. *)
Definition span_digit (curr_byte next_byte index : Z) : Z :=
  Z.lor (Z.shiftl (Z.land curr_byte (Z.shiftr 0xFF index)) ((index + 5) mod 8))
        (Z.shiftr next_byte (8 - (index + 5) mod 8)).

(** The digit of an iteration that stays inside the current byte. *)
Definition plain_digit (curr_byte index : Z) : Z :=
  Z.land (Z.shiftr curr_byte (8 - (index + 5))) 0x1F.

(** The digits [encode_loop] emits from bit [index] of the first byte of
    [rest] on, by recursion on the bytes left: a byte is left after one
    iteration, or after two when the first of them stays inside it. *)
(** The byte after the current one, [0] when there is none. *)
Definition next_of (tl : list byte) : Z :=
  match tl with
  | [] => 0
  | b :: _ => byte_to_Z b
  end.

Fixpoint digits (index : Z) (rest : list byte) : list Z :=
  match rest with
  | [] => []
  | c :: tl =>
    let next_byte := next_of tl in
    if 3 <? index then
      span_digit (byte_to_Z c) next_byte index :: digits ((index + 5) mod 8) tl
    else if (index + 5) mod 8 =? 0 then
      plain_digit (byte_to_Z c) index :: digits 0 tl
    else
      plain_digit (byte_to_Z c) index
        :: span_digit (byte_to_Z c) next_byte ((index + 5) mod 8)
        :: digits (((index + 5) mod 8 + 5) mod 8) tl
  end.

(** [base32_chars[digit]]. *)
Definition base32_char (digit : Z) : byte :=
  match base32_chars !! Z.to_nat digit with
  | Some c => c
  | None => NUL
  end.

(** A digit is an index into the alphabet. *)
Definition digit_ok (d : Z) : bool := (0 <=? d) && (d <? 32).

(** ** The encoder as the specification words it *)

(** Bit [k] of the input taken as a bitstream, most significant bit of each
    byte first; past the last byte the stream is zero. *)
Definition stream_bit (input : list byte) (k : Z) : bool :=
  match input !! Z.to_nat (k / 8) with
  | Some c => Z.testbit (byte_to_Z c) (7 - k mod 8)
  | None => false
  end.

(** The value of the five bits from bit [k] on, the first one weighing 16. *)
Definition window (input : list byte) (k : Z) : Z :=
  16 * Z.b2z (stream_bit input k) + 8 * Z.b2z (stream_bit input (k + 1))
  + 4 * Z.b2z (stream_bit input (k + 2)) + 2 * Z.b2z (stream_bit input (k + 3))
  + Z.b2z (stream_bit input (k + 4)).

(** The fixed alphabet, [A]-[Z] then [2]-[7]. *)
Definition alphabet : list byte :=
  bytes_of_Zs
    [65;66;67;68;69;70;71;72;73;74;75;76;77;78;79;80;81;82;83;84;85;86;87;88;
     89;90;50;51;52;53;54;55].

Definition alphabet_symbol (v : Z) : byte :=
  nth (Z.to_nat v) alphabet NUL.

(** The least number of [b]-sized groups that hold [a] items. *)
Definition ceil_div (a b : Z) : Z := (a + b - 1) / b.

(** Symbol [j] is the alphabet entry of the [j]-th group of five bits. *)
Definition spec_encode (input : list byte) : list byte :=
  map (fun j => alphabet_symbol (window input (5 * Z.of_nat j)))
      (seq 0 (Z.to_nat (ceil_div (8 * Z.of_nat (length input)) 5))).

(** ** The decoder on the digits it recognises *)

(** The digit of an input character, when the loop does not skip it. *)
Definition digit_of (c : byte) : option Z :=
  let lookup := size_wrap (byte_to_Z c - CH_0) in
  if base32_lookup_size <=? lookup then None
  else
    match base32_lookup !! Z.to_nat lookup with
    | Some digit => if digit =? 0xFF then None else Some digit
    | None => None
    end.

(** [decode_loop] on the recognised digits alone: skipped characters leave
    [index], [offset] and the output as they are. *)
Fixpoint dec_digits (ds : list Z) (index offset my_output_length : Z)
    (output_bytes : list byte) : outcome (list byte) :=
  match ds with
  | [] => Ok output_bytes
  | digit :: ds' =>
    if index <=? 3 then
      let index := (index + 5) mod 8 in
      if index =? 0 then
        do output_bytes <- store_or output_bytes offset digit;
        let offset := offset + 1 in
        if my_output_length <=? offset then Ok output_bytes
        else dec_digits ds' index offset my_output_length output_bytes
      else
        do output_bytes <-
          store_or output_bytes offset (Z.shiftl digit (8 - index));
        dec_digits ds' index offset my_output_length output_bytes
    else
      let index := (index + 5) mod 8 in
      do output_bytes <- store_or output_bytes offset (Z.shiftr digit index);
      let offset := offset + 1 in
      if my_output_length <=? offset then Ok output_bytes
      else
        do output_bytes <-
          store_or output_bytes offset (Z.shiftl digit (8 - index));
        dec_digits ds' index offset my_output_length output_bytes
  end.

(** ** The state of the decoder in the middle of a byte *)

(** The byte [c] with all but its [index] leading bits cleared: what the
    decoder has stored of a byte after it saw [index] of its bits. *)
Definition top_bits (index : Z) (c : byte) : byte :=
  Z_to_byte (Z.shiftl (Z.shiftr (byte_to_Z c) (8 - index)) (8 - index)).

(** Equality of bytes, as a test. *)
Definition byte_eqb (a b : byte) : bool := byte_to_Z a =? byte_to_Z b.

(** What [p[i] |= v] leaves in a byte that held [old]. *)
Definition or_byte (old : byte) (v : Z) : byte :=
  Z_to_byte (Z.lor (byte_to_Z old) v).

(** ** Padding and the computed length *)

(** The padding character ['=']. *)
Definition is_pad (c : byte) : bool := byte_to_Z c =? CH_EQ.

Fixpoint drop_pad (l : list byte) : list byte :=
  match l with
  | [] => []
  | c :: tl => if is_pad c then drop_pad tl else l
  end.

(** The input without its trailing ['='] characters. *)
Definition strip_trailing (l : list byte) : list byte :=
  rev (drop_pad (rev l)).

(** The length [tr_base32_decode] computes for [n] input characters. *)
Definition decoded_length (input : list byte) : Z :=
  size_wrap (Z.of_nat (length (strip_trailing input)) * 5) / 8.

(** ** Characters the decoder skips *)


(** * tr_dh_align_key *)

Definition tr_dh_align_key (key_buffer : list byte) (key_size buffer_size : Z)
  : outcome (list byte) :=
  if negb (key_size <=? buffer_size) then AssertFail else
  if key_size <? buffer_size then
    let offset := buffer_size - key_size in
    do key_buffer <- memmove key_buffer offset 0 key_size;
    memset key_buffer 0 NUL offset
  else Ok key_buffer.

(** [tr_dh_make_key], with the OpenSSL calls as data: [generated] is [None]
    when [DH_generate_key] fails and otherwise holds the bytes
    [BN_bn2bin] stores at [public_key], whose number it returns;
    [dh_size] is what [DH_size] returns.  The result is the return value
    with the new contents of [public_key] and [*public_key_length]. *)
Definition tr_dh_make_key (generated : option (list byte)) (dh_size : Z)
    (public_key : list byte) (public_key_length : option Z)
  : outcome (bool * list byte * option Z) :=
  match generated with
  | None => Ok (false, public_key, public_key_length)
  | Some my_public_key =>
    do public_key <- write_bytes public_key 0 my_public_key;
    let my_public_key_length := Z.of_nat (length my_public_key) in
    do public_key <- tr_dh_align_key public_key my_public_key_length dh_size;
    Ok (true, public_key,
        match public_key_length with
        | Some _ => Some dh_size
        | None => None
        end)
  end.

(** The unsigned integer a byte string holds, most significant byte first. *)
Definition be_value (l : list byte) : Z :=
  fold_left (fun acc b => 256 * acc + byte_to_Z b) l 0.

(** * tr_rand_int and tr_rand_int_weak *)

(** The four bytes [tr_rand_buffer] stores into an [int], least significant
    byte first. *)
Definition draw : Type := byte * byte * byte * byte.



(** The state the random functions work on: the outcomes of the coming
    calls of [tr_rand_buffer] ([None] for a call that returns [false]),
    the [static bool init] of [tr_rand_int_weak], the state of the C
    library generator, and the clock [tr_time_msec] reads. *)
Record rand_state : Type := {
  strong : list (option draw);
  init : bool;
  libc_gen : Z;
  clock : Z
}.



Section RandInt.

(** The C library: [srand] maps a seed to a generator state, [rand] yields
    a value and the next state. *)
Variable srand : Z -> Z.
Variable rand : Z -> Z * Z.

Definition tr_rand_int_weak (upper_bound : Z) (st : rand_state)
  : outcome (Z * rand_state) :=
  if negb (0 <? upper_bound) then AssertFail else
  let g := if init st then libc_gen st else srand (clock st mod 2 ^ 32) in
  let (r, g') := rand g in
  Ok (Z.rem r upper_bound,
      {| strong := strong st; init := true; libc_gen := g';
         clock := clock st |}).


End RandInt.

(** The sample generator of the C standard, to have one instance of the
    library's contract. *)
Definition rand_ref (g : Z) : Z * Z :=
  let g' := (g * 1103515245 + 12345) mod 2 ^ 32 in
  ((g' / 65536) mod 32768, g').

Definition srand_ref (seed : Z) : Z := seed.

(** * A reference SHA-1

    [tr_sha1] hands its spans to OpenSSL.  The results below hold for any
    digest function with 20-byte digests; this one, SHA-1 as FIPS 180
    defines it, is what they are instantiated with in the examples. *)
Module SHA1.

Definition w32 (x : Z) : Z := x mod 2 ^ 32.

Definition rotl (n x : Z) : Z :=
  w32 (Z.lor (Z.shiftl x n) (Z.shiftr x (32 - n))).

Definition be_bytes (width : nat) (x : Z) : list Z :=
  map (fun k => Z.shiftr x (8 * Z.of_nat k) mod 256) (rev (seq 0 width)).

Definition pad (msg : list Z) : list Z :=
  let len := Z.of_nat (length msg) in
  let zeros := Z.to_nat ((55 - len) mod 64) in
  msg ++ [0x80] ++ replicate zeros 0 ++ be_bytes 8 (8 * len).

Fixpoint words (bytes : list Z) : list Z :=
  match bytes with
  | a :: b :: c :: d :: tl =>
    (Z.shiftl a 24 + Z.shiftl b 16 + Z.shiftl c 8 + d) :: words tl
  | _ => []
  end.

(** The message schedule, most recent word first. *)
Fixpoint schedule (n : nat) (recent : list Z) : list Z :=
  match n with
  | O => recent
  | S n' =>
    let w := rotl 1 (Z.lxor (Z.lxor (nth 2 recent 0) (nth 7 recent 0))
                            (Z.lxor (nth 13 recent 0) (nth 15 recent 0))) in
    schedule n' (w :: recent)
  end.

Definition state : Type := Z * Z * Z * Z * Z.

Definition round (t : Z) (s : state) (w : Z) : state :=
  let '(a, b, c, d, e) := s in
  let '(f, k) :=
    if t <? 20 then
      (Z.lor (Z.land b c) (Z.land (Z.lxor b 0xFFFFFFFF) d), 0x5A827999)
    else if t <? 40 then (Z.lxor (Z.lxor b c) d, 0x6ED9EBA1)
    else if t <? 60 then
      (Z.lor (Z.lor (Z.land b c) (Z.land b d)) (Z.land c d), 0x8F1BBCDC)
    else (Z.lxor (Z.lxor b c) d, 0xCA62C1D6) in
  (w32 (rotl 5 a + f + e + k + w), a, rotl 30 b, c, d).

Fixpoint rounds (t : Z) (ws : list Z) (s : state) : state :=
  match ws with
  | [] => s
  | w :: ws' => rounds (t + 1) ws' (round t s w)
  end.

Definition block (h : state) (ws : list Z) : state :=
  let '(h0, h1, h2, h3, h4) := h in
  let '(a, b, c, d, e) := rounds 0 (rev (schedule 64 (rev ws))) h in
  (w32 (h0 + a), w32 (h1 + b), w32 (h2 + c), w32 (h3 + d), w32 (h4 + e)).

Fixpoint blocks (n : nat) (ws : list Z) (h : state) : state :=
  match n with
  | O => h
  | S n' => blocks n' (drop 16 ws) (block h (take 16 ws))
  end.

Definition digest_state (msg : list byte) : state :=
  let ws := words (pad (map byte_to_Z msg)) in
  blocks (length ws / 16) ws
    (0x67452301, 0xEFCDAB89, 0x98BADCFE, 0x10325476, 0xC3D2E1F0).

Definition sha1 (msg : list byte) : list byte :=
  let '(h0, h1, h2, h3, h4) := digest_state msg in
  bytes_of_Zs (be_bytes 4 h0 ++ be_bytes 4 h1 ++ be_bytes 4 h2
               ++ be_bytes 4 h3 ++ be_bytes 4 h4).

End SHA1.

(** * tr_ssha1 and tr_ssha1_matches *)

Definition SHA_DIGEST_LENGTH : Z := 20.



(** [strlen]: the index of the first NUL; running off the buffer is a
    fault. *)
Fixpoint strlen_from (s : list byte) (k : Z) : outcome Z :=
  match s with
  | [] => Fault
  | c :: tl => if byte_to_Z c =? 0 then Ok k else strlen_from tl (k + 1)
  end.

Definition strlen (s : list byte) : outcome Z := strlen_from s 0.

(** [strcmp (a, b) == 0]. *)
Fixpoint strcmp_eq (a b : list byte) : outcome bool :=
  match a, b with
  | ca :: ta, cb :: tb =>
    if negb (byte_to_Z ca =? byte_to_Z cb) then Ok false
    else if byte_to_Z ca =? 0 then Ok true
    else strcmp_eq ta tb
  | _, _ => Fault
  end.

(** An object of [size] bytes that nothing has written yet.  Its contents
    are indeterminate in C; the functions below write every byte of such an
    object before they read it. *)
Definition fresh_bytes (size : Z) : list byte :=
  replicate (Z.to_nat size) x00.

(** Modelled from the spec: [tr_malloc] is a function of [utils.c], which
    is not among the sources; it is taken as the allocation of [size]
    bytes, and an allocation that fails is not modelled. *)
Definition tr_malloc (size : Z) : list byte := fresh_bytes size.


(** The digits of lowercase hex, ["0123456789abcdef"]. *)
Definition hex_chars : list byte :=
  bytes_of_Zs [48;49;50;51;52;53;54;55;56;57;97;98;99;100;101;102].

Definition hex_char (v : Z) : byte := nth (Z.to_nat v) hex_chars NUL.

Definition hex_byte (b : byte) : list byte :=
  [hex_char (byte_to_Z b / 16); hex_char (byte_to_Z b mod 16)].

Definition hex_of (l : list byte) : list byte := flat_map hex_byte l.

(** Modelled from the spec: [tr_sha1_to_hex (out + off, sha1)], of
    [utils.c] as well, is taken as the rendering of the 20 digest bytes as
    lowercase hex, two characters a byte, with a terminator after them. *)
Definition tr_sha1_to_hex (out : list byte) (off : Z) (sha1 : list byte)
  : outcome (list byte) :=
  do digest <- read_bytes sha1 0 SHA_DIGEST_LENGTH;
  write_bytes out off (hex_of digest ++ [NUL]).


Section SaltedDigest.

(** The digest OpenSSL computes; [tr_sha1] feeds it its spans in order. *)
Variable sha1 : list byte -> list byte.

(** [tr_sha1 (hash, data1, data1_length, data2, data2_length, NULL)],
    the primitive succeeding. *)
Definition tr_sha1 (data1 : list byte) (data1_length : Z)
    (data2 : list byte) (data2_length : Z) : outcome (list byte) :=
  do d1 <- read_bytes data1 0 data1_length;
  do d2 <- read_bytes data2 0 data2_length;
  Ok (sha1 (d1 ++ d2)).


(** The salt is read out of the token before the object that receives it
    is allocated, which the order of [tr_malloc] and [memcpy] in the source
    allows since the allocation has no effect of its own; the two calls of
    [tr_free] have none on the result. *)
Definition tr_ssha1_matches (ssha1 plain_text : list byte) : outcome bool :=
  do sourcelen <- strlen ssha1;
  if sourcelen <? 2 * SHA_DIGEST_LENGTH - 1 then Ok false else
  let saltlen := size_wrap (sourcelen - 2 * SHA_DIGEST_LENGTH - 1) in
  do data <- read_bytes ssha1 (2 * SHA_DIGEST_LENGTH + 1) saltlen;
  do salt <- write_bytes (tr_malloc saltlen) 0 data;
  let my_ssha1 := tr_malloc (size_wrap (2 * SHA_DIGEST_LENGTH + saltlen + 2)) in
  do len <- strlen plain_text;
  do buf <- tr_sha1 plain_text len salt saltlen;
  do my_ssha1 <- tr_sha1_to_hex my_ssha1 1 buf;
  do my_ssha1 <- write_bytes my_ssha1 (1 + 2 * SHA_DIGEST_LENGTH) salt;
  do my_ssha1 <-
    store my_ssha1 (1 + 2 * SHA_DIGEST_LENGTH + saltlen) NUL;
  do my_ssha1 <- store my_ssha1 0 (Z_to_byte CH_LBRACE);
  strcmp_eq ssha1 my_ssha1.


End SaltedDigest.

(** ** Predicates on C strings, hex and salt characters *)

(** No byte of [l] is the terminator. *)
Definition no_nul (l : list byte) : Prop :=
  Forall (fun c => byte_to_Z c <> 0) l.



(** * Definitions for the further properties *)

(** ** Case and padding of base-32 input *)

(** The upper-case letter for a lower-case one; other bytes as they are. *)
Definition to_upper (c : byte) : byte :=
  if (97 <=? byte_to_Z c) && (byte_to_Z c <=? 122)
  then Z_to_byte (byte_to_Z c - 32)
  else c.

(** What the decoder loop finds out about a character: whether
    [lookup >= base32_lookup_size], and the table entry otherwise. *)
Definition table_entry (c : byte) : bool * outcome Z :=
  let lookup := size_wrap (byte_to_Z c - CH_0) in
  (base32_lookup_size <=? lookup, load base32_lookup lookup).

(** Equality of table entries, as a test. *)
Definition table_entry_eqb (a b : bool * outcome Z) : bool :=
  Bool.eqb (fst a) (fst b)
  && match snd a, snd b with
     | Ok x, Ok y => x =? y
     | Fault, Fault => true
     | AssertFail, AssertFail => true
     | OutOfFuel, OutOfFuel => true
     | _, _ => false
     end.


(** ** The decoder on any digits *)

(** The number a list of base-32 digits holds, first digit most
    significant, continuing from [acc]. *)
Definition be32_from (acc : Z) (ds : list Z) : Z :=
  fold_left (fun acc d => 32 * acc + d) ds acc.

Definition be32_value (ds : list Z) : Z := be32_from 0 ds.

(** The test behind the byte-level steps of the decoder: or-ing a digit
    into a byte whose low bits are clear adds it. *)
Definition or_adds_low (index : Z) (cur d : byte) : bool :=
  implb ((byte_to_Z cur mod 2 ^ (8 - index) =? 0) && (byte_to_Z d <? 32))
    (byte_to_Z
       (or_byte cur
          (if (index + 5) mod 8 =? 0 then byte_to_Z d
           else Z.shiftl (byte_to_Z d) (8 - (index + 5) mod 8)))
     =? byte_to_Z cur + byte_to_Z d * 2 ^ (3 - index)).

Definition or_adds_high (index : Z) (cur d : byte) : bool :=
  implb ((byte_to_Z cur mod 2 ^ (8 - index) =? 0) && (byte_to_Z d <? 32))
    ((byte_to_Z (or_byte cur (Z.shiftr (byte_to_Z d) ((index + 5) mod 8)))
      =? byte_to_Z cur + byte_to_Z d / 2 ^ (index - 3))
     && (byte_to_Z
           (or_byte x00 (Z.shiftl (byte_to_Z d) (8 - (index + 5) mod 8)))
         =? (byte_to_Z d mod 2 ^ (index - 3)) * 2 ^ (11 - index))).

(** The [n] bytes that hold the number [v], most significant byte first. *)
Fixpoint big_endian (n : nat) (v : Z) : list byte :=
  match n with
  | O => []
  | S n' => big_endian n' (v / 256) ++ [Z_to_byte v]
  end.


(** ** Printable characters *)




(** * tr_sha1 and tr_md5 over the OpenSSL digest contexts

    The digest functions of [crypto-utils-openssl.c] and the two variadic
    functions of [crypto-utils.c] that drive them.  OpenSSL is taken as
    data: [results] lists the values the coming calls of
    [EVP_DigestInit_ex], [EVP_DigestUpdate] and [EVP_DigestFinal_ex]
    return (calls past the end of the list return [1]), and a function
    [md] gives the digest of what a context has absorbed.  [live] counts
    the contexts created and not yet destroyed, [logged] the calls of
    [log_openssl_error]. *)
Module Digest.

Inductive digest_algo : Type := EVP_sha1 | EVP_md5.

Definition MD5_DIGEST_LENGTH : Z := 16.

Record evp_state : Type := {
  results : list Z;
  live : Z;
  logged : Z
}.

(** An [EVP_MD_CTX]: its algorithm and the bytes it has absorbed. *)
Record evp_md_ctx : Type := {
  algo : digest_algo;
  absorbed : list byte
}.

(** The value the next OpenSSL call returns. *)
Definition next_result (st : evp_state) : Z * evp_state :=
  match results st with
  | [] => (1, st)
  | r :: rs => (r, {| results := rs; live := live st; logged := logged st |})
  end.

Definition EVP_MD_CTX_create (st : evp_state) : evp_state :=
  {| results := results st; live := live st + 1; logged := logged st |}.

(** [EVP_MD_CTX_destroy (handle)]; on [NULL] it does nothing. *)
Definition EVP_MD_CTX_destroy (handle : option evp_md_ctx) (st : evp_state)
  : evp_state :=
  match handle with
  | Some _ =>
    {| results := results st; live := live st - 1; logged := logged st |}
  | None => st
  end.

Definition log_openssl_error (st : evp_state) : evp_state :=
  {| results := results st; live := live st; logged := logged st + 1 |}.

Definition check_openssl_result (result expected_result : Z)
    (expected_equal : bool) (st : evp_state) : bool * evp_state :=
  let ret := Bool.eqb (result =? expected_result) expected_equal in
  (ret, if ret then st else log_openssl_error st).

(** The macro [check_result (result)]. *)
Definition check_result (result : Z) (st : evp_state) : bool * evp_state :=
  check_openssl_result result 1 true st.

(** [EVP_MD_CTX_create] is taken to return a context. *)
Definition openssl_evp_digest_context_init (a : digest_algo)
    (st : evp_state) : option evp_md_ctx * evp_state :=
  let st := EVP_MD_CTX_create st in
  let handle := {| algo := a; absorbed := [] |} in
  let (r, st) := next_result st in
  let (ok, st) := check_result r st in
  if ok then (Some handle, st)
  else (None, EVP_MD_CTX_destroy (Some handle) st).

(** A successful [EVP_DigestUpdate] absorbs the [data_length] bytes at
    [data]; the bytes must lie inside the buffer either way. *)
Definition openssl_evp_digest_context_update (handle : option evp_md_ctx)
    (data : option (list byte)) (data_length : Z) (st : evp_state)
  : outcome (bool * option evp_md_ctx * evp_state) :=
  match handle with
  | None => AssertFail
  | Some h =>
    if data_length =? 0 then Ok (true, handle, st) else
    match data with
    | None => AssertFail
    | Some d =>
      do bytes <- read_bytes d 0 data_length;
      let (r, st) := next_result st in
      let (ok, st) := check_result r st in
      let h' := if ok
                then {| algo := algo h; absorbed := absorbed h ++ bytes |}
                else h in
      Ok (ok, Some h', st)
    end
  end.

Section WithDigest.

(** What [EVP_DigestFinal_ex] stores for a context that absorbed the given
    bytes. *)
Variable md : digest_algo -> list byte -> list byte.

(** A successful [EVP_DigestFinal_ex] stores the digest at [hash] and its
    length in [hash_length]; a failed one is taken to store nothing. *)
Definition openssl_evp_digest_context_final (handle : option evp_md_ctx)
    (hash : option (list byte)) (expected_hash_length : Z) (st : evp_state)
  : outcome (bool * option (list byte) * evp_state) :=
  do r <-
    match hash with
    | None => Ok (true, hash, st)
    | Some buf =>
      match handle with
      | None => AssertFail
      | Some h =>
        let (r, st) := next_result st in
        let digest := md (algo h) (absorbed h) in
        do buf <- (if r =? 1 then write_bytes buf 0 digest else Ok buf);
        let (ret, st) := check_result r st in
        if negb (negb ret
                 || (Z.of_nat (length digest) =? expected_hash_length))
        then AssertFail
        else Ok (ret, Some buf, st)
      end
    end;
  let '(ret, hash, st) := r in
  Ok (ret, hash, EVP_MD_CTX_destroy handle st).

Definition tr_sha1_init (st : evp_state) : option evp_md_ctx * evp_state :=
  openssl_evp_digest_context_init EVP_sha1 st.

Definition tr_sha1_update (handle : option evp_md_ctx)
    (data : option (list byte)) (data_length : Z) (st : evp_state)
  : outcome (bool * option evp_md_ctx * evp_state) :=
  openssl_evp_digest_context_update handle data data_length st.

Definition tr_sha1_final (handle : option evp_md_ctx)
    (hash : option (list byte)) (st : evp_state)
  : outcome (bool * option (list byte) * evp_state) :=
  openssl_evp_digest_context_final handle hash SHA_DIGEST_LENGTH st.

Definition tr_md5_init (st : evp_state) : option evp_md_ctx * evp_state :=
  openssl_evp_digest_context_init EVP_md5 st.

Definition tr_md5_update (handle : option evp_md_ctx)
    (data : option (list byte)) (data_length : Z) (st : evp_state)
  : outcome (bool * option evp_md_ctx * evp_state) :=
  openssl_evp_digest_context_update handle data data_length st.

Definition tr_md5_final (handle : option evp_md_ctx)
    (hash : option (list byte)) (st : evp_state)
  : outcome (bool * option (list byte) * evp_state) :=
  openssl_evp_digest_context_final handle hash MD5_DIGEST_LENGTH st.

(** The [while] loop of [tr_sha1] over its variable arguments.  [args] is
    the argument list after [data1_length], a pointer and an [int] at a
    time, without its closing [NULL]; an entry whose pointer is [None] is a
    [NULL] pointer, which the loop takes for the end.  The result tells
    whether the loop ended with [data == NULL]. *)
Fixpoint sha1_va_loop (sha : option evp_md_ctx)
    (args : list (option (list byte) * Z)) (st : evp_state)
  : outcome (bool * option evp_md_ctx * evp_state) :=
  match args with
  | [] => Ok (true, sha, st)
  | (None, _) :: _ => Ok (true, sha, st)
  | (Some data, data_length) :: args' =>
    if negb (0 <=? data_length) then AssertFail else
    do r <- tr_sha1_update sha (Some data) data_length st;
    let '(ok, sha, st) := r in
    if ok then sha1_va_loop sha args' st else Ok (false, sha, st)
  end.

(** The result is the return value, the new contents of [hash] and the
    state of OpenSSL.  [data1_length] is an [int], which the call of
    [tr_sha1_update] converts to [size_t]. *)
Definition tr_sha1 (hash : option (list byte)) (data1 : option (list byte))
    (data1_length : Z) (args : list (option (list byte) * Z))
    (st : evp_state) : outcome (bool * option (list byte) * evp_state) :=
  let (sha, st) := tr_sha1_init st in
  match sha with
  | None => Ok (false, hash, st)
  | Some _ =>
    do r <- tr_sha1_update sha data1 (size_wrap data1_length) st;
    let '(ok, sha, st) := r in
    do r <- (if ok then sha1_va_loop sha args st else Ok (false, sha, st));
    let '(at_end, sha, st) := r in
    if at_end then tr_sha1_final sha hash st
    else
      do r <- tr_sha1_final sha None st;
      let '(_, _, st) := r in
      Ok (false, hash, st)
  end.

Fixpoint md5_va_loop (md5 : option evp_md_ctx)
    (args : list (option (list byte) * Z)) (st : evp_state)
  : outcome (bool * option evp_md_ctx * evp_state) :=
  match args with
  | [] => Ok (true, md5, st)
  | (None, _) :: _ => Ok (true, md5, st)
  | (Some data, data_length) :: args' =>
    if negb (0 <=? data_length) then AssertFail else
    do r <- tr_md5_update md5 (Some data) data_length st;
    let '(ok, md5, st) := r in
    if ok then md5_va_loop md5 args' st else Ok (false, md5, st)
  end.

Definition tr_md5 (hash : option (list byte)) (data1 : option (list byte))
    (data1_length : Z) (args : list (option (list byte) * Z))
    (st : evp_state) : outcome (bool * option (list byte) * evp_state) :=
  let (md5, st) := tr_md5_init st in
  match md5 with
  | None => Ok (false, hash, st)
  | Some _ =>
    do r <- tr_md5_update md5 data1 (size_wrap data1_length) st;
    let '(ok, md5, st) := r in
    do r <- (if ok then md5_va_loop md5 args st else Ok (false, md5, st));
    let '(at_end, md5, st) := r in
    if at_end then tr_md5_final md5 hash st
    else
      do r <- tr_md5_final md5 None st;
      let '(_, _, st) := r in
      Ok (false, hash, st)
  end.

(** The common shape of [tr_sha1] and [tr_md5]. *)
Definition digest_shape (a : digest_algo) (expected_hash_length : Z)
    (hash : option (list byte)) (data1 : option (list byte))
    (data1_length : Z) (args : list (option (list byte) * Z))
    (st : evp_state) : outcome (bool * option (list byte) * evp_state) :=
  let (ctx, st) := openssl_evp_digest_context_init a st in
  match ctx with
  | None => Ok (false, hash, st)
  | Some _ =>
    do r <- openssl_evp_digest_context_update ctx data1
              (size_wrap data1_length) st;
    let '(ok, ctx, st) := r in
    do r <- (if ok then sha1_va_loop ctx args st else Ok (false, ctx, st));
    let '(at_end, ctx, st) := r in
    if at_end
    then openssl_evp_digest_context_final ctx hash expected_hash_length st
    else
      do r <- openssl_evp_digest_context_final ctx None
                expected_hash_length st;
      let '(_, _, st) := r in
      Ok (false, hash, st)
  end.

End WithDigest.

(** The bytes the argument list names, up to its first [NULL] pointer. *)
Fixpoint spans_data (args : list (option (list byte) * Z)) : list byte :=
  match args with
  | [] => []
  | (None, _) :: _ => []
  | (Some data, data_length) :: args' =>
    take (Z.to_nat data_length) data ++ spans_data args'
  end.

(** Every span up to the first [NULL] pointer lies inside its buffer. *)
Fixpoint spans_ok (args : list (option (list byte) * Z)) : Prop :=
  match args with
  | [] => True
  | (None, _) :: _ => True
  | (Some data, data_length) :: args' =>
    0 <= data_length <= Z.of_nat (length data) /\ spans_ok args'
  end.

(** The argument list without its spans of length zero. *)
Fixpoint drop_empty (args : list (option (list byte) * Z))
  : list (option (list byte) * Z) :=
  match args with
  | [] => []
  | (Some data, data_length) :: args' =>
    if data_length =? 0 then drop_empty args'
    else (Some data, data_length) :: drop_empty args'
  | (None, data_length) :: args' => (None, data_length) :: drop_empty args'
  end.

End Digest.


(** Every scheduled OpenSSL call succeeds. *)
Definition all_succeed (st : Digest.evp_state) : Prop :=
  Forall (fun r => r = 1) (Digest.results st).

(** A digest function with digests of the two lengths, to have one
    instance: the reference SHA-1, whose first 16 bytes stand in for an
    MD5 digest. *)
Definition sample_md (a : Digest.digest_algo) (m : list byte) : list byte :=
  match a with
  | Digest.EVP_sha1 => SHA1.sha1 m
  | Digest.EVP_md5 => take 16 (SHA1.sha1 m)
  end.

(** * Proofs *)

(** ** Facts about bytes *)

Lemma byte_to_Z_range (b : byte) : 0 <= byte_to_Z b < 256.
Proof.
  unfold byte_to_Z. pose proof (Byte.to_N_bounded b) as H. lia.
Qed.

Lemma Z_to_byte_to_Z (b : byte) : Z_to_byte (byte_to_Z b) = b.
Proof.
  unfold Z_to_byte. rewrite Z.mod_small by apply byte_to_Z_range.
  unfold byte_to_Z. rewrite N2Z.id, Byte.of_to_N. reflexivity.
Qed.

Lemma byte_to_Z_to_byte (x : Z) : byte_to_Z (Z_to_byte x) = x mod 256.
Proof.
  unfold Z_to_byte, byte_to_Z.
  assert (Hr : 0 <= x mod 256 < 256) by (apply Z.mod_pos_bound; lia).
  destruct (Byte.of_N (Z.to_N (x mod 256))) as [b|] eqn:E.
  - apply Byte.to_of_N in E. rewrite E. lia.
  - apply Byte.of_N_None_iff in E. lia.
Qed.

Lemma all_bytes_complete (b : byte) : In b all_bytes.
Proof.
  unfold all_bytes. apply in_map_iff.
  exists (Z.to_nat (byte_to_Z b)). pose proof (byte_to_Z_range b). split.
  - rewrite Z2Nat.id by lia. apply Z_to_byte_to_Z.
  - apply in_seq. lia.
Qed.

Lemma forall_byte (P : byte -> bool) :
  forallb P all_bytes = true -> forall b, P b = true.
Proof.
  intros H b. rewrite forallb_forall in H. apply H, all_bytes_complete.
Qed.

Lemma forall_byte2 (P : byte -> byte -> bool) :
  forallb (fun a => forallb (P a) all_bytes) all_bytes = true ->
  forall a b, P a b = true.
Proof.
  intros H a b. apply (forall_byte (P a)). revert a.
  apply forall_byte. exact H.
Qed.

(** The eight values the bit index of either loop takes. *)
Lemma index_cases (index : Z) :
  0 <= index < 8 ->
  index = 0 \/ index = 1 \/ index = 2 \/ index = 3 \/
  index = 4 \/ index = 5 \/ index = 6 \/ index = 7.
Proof. lia. Qed.

Ltac case_index H :=
  apply index_cases in H;
  destruct H as [H|[H|[H|[H|[H|[H|[H|H]]]]]]]; subst.

(** ** Facts about buffers *)

Lemma load_lookup {A} (buf : list A) (i : Z) (x : A) :
  0 <= i -> buf !! Z.to_nat i = Some x -> load buf i = Ok x.
Proof.
  intros Hi Hl. unfold load, in_bounds.
  pose proof (lookup_lt_Some _ _ _ Hl).
  rewrite Hl.
  replace (0 <=? i) with true by (symmetry; apply Z.leb_le; lia).
  replace (i <? Z.of_nat (length buf)) with true
    by (symmetry; apply Z.ltb_lt; lia).
  reflexivity.
Qed.

Lemma load_Ok {A} (buf : list A) (i : Z) (x : A) :
  load buf i = Ok x -> 0 <= i /\ buf !! Z.to_nat i = Some x.
Proof.
  unfold load, in_bounds. intros H.
  destruct (0 <=? i) eqn:E1; [|discriminate].
  destruct (i <? Z.of_nat (length buf)); [|discriminate].
  destruct (buf !! Z.to_nat i); [|discriminate].
  apply Z.leb_le in E1. simpl in H. inversion H. subst. auto.
Qed.

Lemma load_app_mid {A} (pre : list A) (x : A) (post : list A) (i : Z) :
  i = Z.of_nat (length pre) -> load (pre ++ x :: post) i = Ok x.
Proof.
  intros ->. apply load_lookup; [lia|].
  rewrite Nat2Z.id. apply list_lookup_middle. reflexivity.
Qed.

Lemma store_app_mid {A} (pre : list A) (x v : A) (post : list A) (i : Z) :
  i = Z.of_nat (length pre) ->
  store (pre ++ x :: post) i v = Ok (pre ++ v :: post).
Proof.
  intros ->. unfold store, in_bounds. rewrite length_app. simpl.
  replace (0 <=? Z.of_nat (length pre)) with true
    by (symmetry; apply Z.leb_le; lia).
  replace (Z.of_nat (length pre) <? Z.of_nat (length pre + S (length post)))
    with true by (symmetry; apply Z.ltb_lt; lia).
  simpl. rewrite Nat2Z.id.
  rewrite insert_app_r_alt by lia. rewrite Nat.sub_diag. reflexivity.
Qed.

Lemma store_or_app_mid (pre : list byte) (x : byte) (post : list byte)
    (i v : Z) :
  i = Z.of_nat (length pre) ->
  store_or (pre ++ x :: post) i v
  = Ok (pre ++ Z_to_byte (Z.lor (byte_to_Z x) v) :: post).
Proof.
  intros Hi. unfold store_or. rewrite (load_app_mid pre x post i Hi). simpl.
  apply store_app_mid, Hi.
Qed.

(** ** The encoder loop and its digits *)

Lemma load_base32_chars (digit : Z) :
  0 <= digit < 32 -> load base32_chars digit = Ok (base32_char digit).
Proof.
  intros H. unfold base32_char.
  destruct (base32_chars !! Z.to_nat digit) as [c|] eqn:E.
  - apply load_lookup; [lia|exact E].
  - apply lookup_ge_None in E. simpl in E. lia.
Qed.

Lemma plain_digit_range (c : byte) (index : Z) :
  0 <= index <= 3 -> 0 <= plain_digit (byte_to_Z c) index < 32.
Proof.
  intros H.
  assert (E : digit_ok (plain_digit (byte_to_Z c) index) = true).
  { assert (H8 : 0 <= index < 8) by lia.
    case_index H8; try lia; revert c; apply forall_byte; vm_compute;
      reflexivity. }
  unfold digit_ok in E. lia.
Qed.

Lemma span_digit_range (c n : byte) (index : Z) :
  4 <= index < 8 ->
  0 <= span_digit (byte_to_Z c) (byte_to_Z n) index < 32
  /\ 0 <= span_digit (byte_to_Z c) 0 index < 32.
Proof.
  intros H.
  assert (E : digit_ok (span_digit (byte_to_Z c) (byte_to_Z n) index)
              && digit_ok (span_digit (byte_to_Z c) 0 index) = true).
  { assert (H8 : 0 <= index < 8) by lia.
    case_index H8; try lia; revert c n; apply forall_byte2; vm_compute;
      reflexivity. }
  unfold digit_ok in E. lia.
Qed.

Ltac zlia := Z.div_mod_to_equations; lia.

Lemma digits_high (index : Z) (c : byte) (tl : list byte) :
  3 < index ->
  digits index (c :: tl)
  = span_digit (byte_to_Z c) (next_of tl) index
      :: digits ((index + 5) mod 8) tl.
Proof. intros H. apply Z.ltb_lt in H. simpl. rewrite H. reflexivity. Qed.

Lemma digits_three (c : byte) (tl : list byte) :
  digits 3 (c :: tl) = plain_digit (byte_to_Z c) 3 :: digits 0 tl.
Proof. reflexivity. Qed.

Lemma digits_low (index : Z) (c : byte) (tl : list byte) :
  0 <= index <= 2 ->
  digits index (c :: tl)
  = plain_digit (byte_to_Z c) index :: digits (index + 5) (c :: tl).
Proof.
  intros H. assert (H8 : 0 <= index < 8) by lia.
  case_index H8; try lia; reflexivity.
Qed.

Lemma next_of_range (tl : list byte) :
  exists b : byte, next_of tl = byte_to_Z b \/ next_of tl = 0.
Proof. destruct tl as [|b tl]; [exists x00|exists b]; simpl; auto. Qed.

Lemma digits_range (rest : list byte) :
  forall index, 0 <= index < 8 ->
  Forall (fun d => 0 <= d < 32) (digits index rest).
Proof.
  assert (Hspan : forall c tl index, 4 <= index < 8 ->
    0 <= span_digit (byte_to_Z c) (next_of tl) index < 32).
  { intros c tl index Hi. destruct (next_of_range tl) as [b [-> | ->]];
      apply (span_digit_range c b index Hi). }
  induction rest as [|c tl IH]; intros index Hi; [constructor|].
  destruct (Z_le_gt_dec index 2) as [Hlo|Hhi].
  - rewrite digits_low by lia.
    constructor; [apply plain_digit_range; lia|].
    rewrite digits_high by lia.
    constructor; [apply Hspan; lia|apply IH; zlia].
  - destruct (Z.eq_dec index 3) as [->|Hne].
    + rewrite digits_three.
      constructor; [apply plain_digit_range; lia|apply IH; lia].
    + rewrite digits_high by lia.
      constructor; [apply Hspan; lia|apply IH; zlia].
Qed.

Lemma digits_length (rest : list byte) :
  forall index, 0 <= index < 8 ->
  Z.of_nat (length (digits index rest))
  = if decide (rest = []) then 0
    else (8 * Z.of_nat (length rest) - index + 4) / 5.
Proof.
  induction rest as [|c tl IH]; intros index Hi; [reflexivity|].
  rewrite decide_False by discriminate.
  assert (Hlen : tl = [] \/ tl <> [] /\ (0 < length tl)%nat).
  { destruct tl; [left|right]; simpl; split; auto; lia. }
  destruct (Z_le_gt_dec index 2) as [Hlo|Hhi].
  - rewrite digits_low, digits_high by lia. simpl length.
    rewrite !Nat2Z.inj_succ, IH by zlia.
    destruct Hlen as [->|[Hne Hpos]].
    + simpl. zlia.
    + rewrite decide_False by exact Hne. zlia.
  - destruct (Z.eq_dec index 3) as [->|Hne3].
    + rewrite digits_three. simpl length.
      rewrite !Nat2Z.inj_succ, IH by zlia.
      destruct Hlen as [->|[Hne Hpos]].
      * simpl. zlia.
      * rewrite decide_False by exact Hne. zlia.
    + rewrite digits_high by lia. simpl length.
      rewrite !Nat2Z.inj_succ, IH by zlia.
      destruct Hlen as [->|[Hne Hpos]].
      * simpl. zlia.
      * rewrite decide_False by exact Hne. zlia.
Qed.

Lemma encode_loop_done fuel input_bytes input_length i index output_bytes o :
  input_length <= i ->
  encode_loop fuel input_bytes input_length i index output_bytes o
  = Ok output_bytes.
Proof.
  intros H. apply Z.ltb_ge in H. destruct fuel; simpl; rewrite H; reflexivity.
Qed.

Lemma encode_loop_step fuel input_bytes input_length i index output_bytes o :
  i < input_length ->
  encode_loop (S fuel) input_bytes input_length i index output_bytes o
  = do curr <- load input_bytes i;
    if 3 <? index then
      do next_byte <-
        (if i + 1 <? input_length
         then do b <- load input_bytes (i + 1); Ok (byte_to_Z b)
         else Ok 0);
      do c <- load base32_chars (span_digit (byte_to_Z curr) next_byte index);
      do output_bytes <- store output_bytes o c;
      encode_loop fuel input_bytes input_length (i + 1) ((index + 5) mod 8)
        output_bytes (o + 1)
    else
      do c <- load base32_chars (plain_digit (byte_to_Z curr) index);
      do output_bytes <- store output_bytes o c;
      encode_loop fuel input_bytes input_length
        (if (index + 5) mod 8 =? 0 then i + 1 else i) ((index + 5) mod 8)
        output_bytes (o + 1).
Proof.
  intros H. apply Z.ltb_lt in H. simpl. rewrite H. reflexivity.
Qed.

(** [encode_loop], started at byte [length pre] of [pre ++ rest] and at
    output position [length opre], fills the next positions with the
    characters of [digits index rest] and touches nothing else. *)
Lemma encode_loop_digits (rest : list byte) :
  forall pre index opre omid otail fuel,
  0 <= index < 8 ->
  length omid = length (digits index rest) ->
  (length (digits index rest) <= fuel)%nat ->
  encode_loop fuel (pre ++ rest) (Z.of_nat (length (pre ++ rest)))
    (Z.of_nat (length pre)) index (opre ++ omid ++ otail)
    (Z.of_nat (length opre))
  = Ok (opre ++ map base32_char (digits index rest) ++ otail).
Proof.
  induction rest as [|c tl IH]; intros pre index opre omid otail fuel Hi Hm Hf.
  { rewrite encode_loop_done by (rewrite app_nil_r; lia).
    destruct omid; [reflexivity|discriminate]. }
  assert (Hnext : (if Z.of_nat (length pre) + 1
                      <? Z.of_nat (length (pre ++ c :: tl))
                   then do b <- load (pre ++ c :: tl) (Z.of_nat (length pre) + 1);
                        Ok (byte_to_Z b)
                   else Ok 0) = Ok (next_of tl)).
  { rewrite length_app. simpl length. destruct tl as [|b tl'].
    - replace (_ <? _) with false by (symmetry; apply Z.ltb_ge; simpl; lia).
      reflexivity.
    - replace (_ <? _) with true by (symmetry; apply Z.ltb_lt; simpl; lia).
      replace (pre ++ c :: b :: tl') with ((pre ++ [c]) ++ b :: tl')
        by (rewrite <- app_assoc; reflexivity).
      rewrite load_app_mid by (rewrite length_app; simpl; lia).
      reflexivity. }
  assert (Hlt : Z.of_nat (length pre) < Z.of_nat (length (pre ++ c :: tl)))
    by (rewrite length_app; simpl; lia).
  assert (Hin : pre ++ c :: tl = (pre ++ [c]) ++ tl)
    by (rewrite <- app_assoc; reflexivity).
  assert (Hpre1 : Z.of_nat (length pre) + 1 = Z.of_nat (length (pre ++ [c])))
    by (rewrite length_app; simpl; lia).
  assert (Hspan : forall k, 4 <= k < 8 ->
            0 <= span_digit (byte_to_Z c) (next_of tl) k < 32).
  { intros k Hk. destruct (next_of_range tl) as [b [-> | ->]];
      apply (span_digit_range c b k Hk). }
  (* an iteration that spans a byte boundary, then the rest by induction *)
  assert (Hhigh : forall index opre omid otail fuel,
    3 < index < 8 ->
    length omid = length (digits index (c :: tl)) ->
    (length (digits index (c :: tl)) <= fuel)%nat ->
    encode_loop fuel (pre ++ c :: tl) (Z.of_nat (length (pre ++ c :: tl)))
      (Z.of_nat (length pre)) index (opre ++ omid ++ otail)
      (Z.of_nat (length opre))
    = Ok (opre ++ map base32_char (digits index (c :: tl)) ++ otail)).
  { clear index opre omid otail fuel Hi Hm Hf.
    intros index opre omid otail fuel Hi Hm Hf.
    rewrite digits_high in * by lia.
    destruct fuel as [|fuel]; [simpl in Hf; lia|].
    destruct omid as [|m omid]; [discriminate|].
    rewrite encode_loop_step by exact Hlt.
    rewrite load_app_mid by reflexivity. cbn [bind].
    replace (3 <? index) with true by (symmetry; apply Z.ltb_lt; lia).
    rewrite Hnext. cbn [bind].
    rewrite load_base32_chars by (apply Hspan; lia). cbn [bind].
    rewrite <- app_comm_cons, store_app_mid by reflexivity. cbn [bind].
    rewrite Hin at 1 2. rewrite Hpre1.
    replace (opre ++ base32_char (span_digit (byte_to_Z c) (next_of tl) index)
               :: omid ++ otail)
      with ((opre ++ [base32_char (span_digit (byte_to_Z c) (next_of tl) index)])
              ++ omid ++ otail) by (rewrite <- app_assoc; reflexivity).
    replace (Z.of_nat (length opre) + 1)
      with (Z.of_nat (length (opre ++
              [base32_char (span_digit (byte_to_Z c) (next_of tl) index)])))
      by (rewrite length_app; simpl; lia).
    rewrite IH; [|zlia|simpl in Hm; lia|simpl in Hf; lia].
    rewrite <- app_assoc. reflexivity. }
  destruct (Z_le_gt_dec index 3) as [Hlo|Hhi]; [|apply Hhigh; auto; lia].
  destruct fuel as [|fuel]; [destruct (Z.eq_dec index 3) as [->|];
    [|rewrite digits_low in Hf by lia]; simpl in Hf; lia|].
  rewrite encode_loop_step by exact Hlt.
  rewrite load_app_mid by reflexivity. cbn [bind].
  replace (3 <? index) with false by (symmetry; apply Z.ltb_ge; lia).
  rewrite load_base32_chars by (apply plain_digit_range; lia). cbn [bind].
  destruct (Z.eq_dec index 3) as [->|Hne].
  - rewrite digits_three in *.
    destruct omid as [|m omid]; [discriminate|].
    rewrite <- app_comm_cons, store_app_mid by reflexivity. cbn [bind].
    change ((3 + 5) mod 8) with 0. cbn [Z.eqb].
    rewrite Hin at 1 2. rewrite Hpre1.
    replace (opre ++ base32_char (plain_digit (byte_to_Z c) 3)
               :: omid ++ otail)
      with ((opre ++ [base32_char (plain_digit (byte_to_Z c) 3)])
              ++ omid ++ otail) by (rewrite <- app_assoc; reflexivity).
    replace (Z.of_nat (length opre) + 1)
      with (Z.of_nat (length (opre ++
              [base32_char (plain_digit (byte_to_Z c) 3)])))
      by (rewrite length_app; simpl; lia).
    rewrite IH; [|lia|simpl in Hm; lia|simpl in Hf; lia].
    rewrite <- app_assoc. reflexivity.
  - rewrite digits_low in * by lia.
    destruct omid as [|m omid]; [discriminate|].
    rewrite <- app_comm_cons, store_app_mid by reflexivity. cbn [bind].
    replace ((index + 5) mod 8) with (index + 5) by zlia.
    replace (index + 5 =? 0) with false by (symmetry; apply Z.eqb_neq; lia).
    replace (opre ++ base32_char (plain_digit (byte_to_Z c) index)
               :: omid ++ otail)
      with ((opre ++ [base32_char (plain_digit (byte_to_Z c) index)])
              ++ omid ++ otail) by (rewrite <- app_assoc; reflexivity).
    replace (Z.of_nat (length opre) + 1)
      with (Z.of_nat (length (opre ++
              [base32_char (plain_digit (byte_to_Z c) index)])))
      by (rewrite length_app; simpl; lia).
    rewrite Hhigh; [|lia|cbn [length] in Hm; lia|cbn [length] in Hf; lia].
    rewrite <- app_assoc. reflexivity.
Qed.

(** ** The digits as groups of five bits *)

Lemma stream_bit_cons (c : byte) (tl : list byte) (k : Z) :
  0 <= k -> stream_bit (c :: tl) (8 + k) = stream_bit tl k.
Proof.
  intros Hk. unfold stream_bit.
  replace ((8 + k) / 8) with (1 + k / 8) by zlia.
  replace ((8 + k) mod 8) with (k mod 8) by zlia.
  replace (Z.to_nat (1 + k / 8)) with (S (Z.to_nat (k / 8))) by zlia.
  reflexivity.
Qed.

Lemma window_cons (c : byte) (tl : list byte) (k : Z) :
  0 <= k -> window (c :: tl) (8 + k) = window tl k.
Proof.
  intros Hk. unfold window.
  rewrite <- !Z.add_assoc, !stream_bit_cons by lia. reflexivity.
Qed.

Lemma stream_bit_two (c b : byte) (tl : list byte) (k : Z) :
  0 <= k < 16 -> stream_bit (c :: b :: tl) k = stream_bit [c; b] k.
Proof.
  intros Hk. unfold stream_bit.
  assert (H : Z.to_nat (k / 8) = 0%nat \/ Z.to_nat (k / 8) = 1%nat) by zlia.
  destruct H as [-> | ->]; reflexivity.
Qed.

Lemma window_two (c b : byte) (tl : list byte) (k : Z) :
  0 <= k < 12 -> window (c :: b :: tl) k = window [c; b] k.
Proof.
  intros Hk. unfold window.
  rewrite (stream_bit_two c b tl k), (stream_bit_two c b tl (k + 1)),
    (stream_bit_two c b tl (k + 2)), (stream_bit_two c b tl (k + 3)),
    (stream_bit_two c b tl (k + 4)) by lia.
  reflexivity.
Qed.

Lemma plain_digit_window (c : byte) (tl : list byte) (index : Z) :
  0 <= index <= 3 ->
  plain_digit (byte_to_Z c) index = window (c :: tl) index.
Proof.
  intros Hi.
  assert (E : forall b, window (c :: tl) index = window [c; b] index).
  { intros b. destruct tl as [|b' tl'].
    - unfold window, stream_bit.
      assert (H8 : 0 <= index < 8) by lia.
      case_index H8; try lia; reflexivity.
    - rewrite window_two by lia. unfold window, stream_bit.
      assert (H8 : 0 <= index < 8) by lia.
      case_index H8; try lia; reflexivity. }
  rewrite (E x00). clear E. apply Z.eqb_eq.
  assert (H8 : 0 <= index < 8) by lia.
  case_index H8; try lia; revert c; clear; apply forall_byte; vm_compute;
    reflexivity.
Qed.

Lemma span_digit_window (c : byte) (tl : list byte) (index : Z) :
  4 <= index < 8 ->
  span_digit (byte_to_Z c) (next_of tl) index = window (c :: tl) index.
Proof.
  intros Hi. assert (H8 : 0 <= index < 8) by lia.
  destruct tl as [|b tl']; cbn [next_of].
  - apply Z.eqb_eq.
    case_index H8; try lia; revert c; clear; apply forall_byte; vm_compute;
      reflexivity.
  - rewrite window_two by lia. apply Z.eqb_eq.
    case_index H8; try lia; revert c b; clear; apply forall_byte2; vm_compute;
      reflexivity.
Qed.

(** Digit [j] of the encoder is the five-bit group that starts [5 * j] bits
    after its current position. *)
Lemma digits_lookup (rest : list byte) :
  forall index (j : nat), 0 <= index < 8 ->
  (j < length (digits index rest))%nat ->
  digits index rest !! j = Some (window rest (index + 5 * Z.of_nat j)).
Proof.
  induction rest as [|c tl IH]; intros index j Hi Hj; [simpl in Hj; lia|].
  assert (Hhigh : forall index j, 3 < index < 8 ->
    (j < length (digits index (c :: tl)))%nat ->
    digits index (c :: tl) !! j
    = Some (window (c :: tl) (index + 5 * Z.of_nat j))).
  { clear index j Hi Hj. intros index j Hi Hj.
    rewrite digits_high in * by lia. destruct j as [|j].
    - simpl. rewrite Z.add_0_r, span_digit_window by lia. reflexivity.
    - cbn [length] in Hj. cbn [lookup list_lookup].
      change (digits ((index + 5) mod 8) tl !! j =
              Some (window (c :: tl) (index + 5 * Z.of_nat (S j)))).
      rewrite IH by zlia.
      replace (index + 5 * Z.of_nat (S j))
        with (8 + ((index + 5) mod 8 + 5 * Z.of_nat j)) by zlia.
      rewrite window_cons by zlia. reflexivity. }
  destruct (Z_le_gt_dec index 3) as [Hlo|Hhi]; [|apply Hhigh; auto; lia].
  destruct (Z.eq_dec index 3) as [->|Hne].
  - rewrite digits_three in *. destruct j as [|j].
    + simpl. rewrite (plain_digit_window c tl 3) by lia. reflexivity.
    + cbn [length] in Hj.
      change (digits 0 tl !! j = Some (window (c :: tl) (3 + 5 * Z.of_nat (S j)))).
      rewrite IH by lia.
      replace (3 + 5 * Z.of_nat (S j)) with (8 + (0 + 5 * Z.of_nat j)) by lia.
      rewrite window_cons by lia. reflexivity.
  - rewrite digits_low in * by lia. destruct j as [|j].
    + simpl. rewrite Z.add_0_r, (plain_digit_window c tl index) by lia.
      reflexivity.
    + cbn [length] in Hj.
      change (digits (index + 5) (c :: tl) !! j
              = Some (window (c :: tl) (index + 5 * Z.of_nat (S j)))).
      rewrite Hhigh by lia. f_equal. f_equal. lia.
Qed.

Lemma base32_chars_alphabet (n : nat) :
  (n < 32)%nat -> base32_chars !! n = Some (nth n alphabet NUL).
Proof. intros H. do 32 (destruct n as [|n]; [reflexivity|]). lia. Qed.

Lemma base32_char_alphabet (d : Z) :
  0 <= d < 32 -> base32_char d = alphabet_symbol d.
Proof.
  intros H. unfold base32_char, alphabet_symbol.
  rewrite base32_chars_alphabet by lia. reflexivity.
Qed.

Lemma alphabet_symbol_in (d : Z) :
  0 <= d < 32 ->
  In (alphabet_symbol d) alphabet /\ byte_to_Z (alphabet_symbol d) <> CH_EQ.
Proof.
  intros H. unfold alphabet_symbol.
  assert (Hn : (Z.to_nat d < 32)%nat) by lia.
  revert Hn. generalize (Z.to_nat d). intros n Hn.
  do 32 (destruct n as [|n];
         [split; [vm_compute; tauto | vm_compute; discriminate]|]).
  lia.
Qed.

Lemma ceil_div_5_length (n : Z) :
  0 <= n -> ceil_div (8 * n) 5 = (n * 8 + 4) / 5.
Proof. intros H. unfold ceil_div. f_equal. lia. Qed.

Lemma digits_count (input : list byte) :
  length (digits 0 input)
  = Z.to_nat (ceil_div (8 * Z.of_nat (length input)) 5).
Proof.
  apply Nat2Z.inj. rewrite digits_length by lia. unfold ceil_div.
  destruct (decide (input = [])) as [->|Hne]; [reflexivity|].
  zlia.
Qed.

Lemma window_range (input : list byte) (k : Z) : 0 <= window input k < 32.
Proof.
  unfold window.
  generalize (stream_bit input k), (stream_bit input (k + 1)),
    (stream_bit input (k + 2)), (stream_bit input (k + 3)),
    (stream_bit input (k + 4)).
  intros [] [] [] [] []; cbn [Z.b2z]; lia.
Qed.

Lemma digits_spec (input : list byte) :
  map base32_char (digits 0 input) = spec_encode input.
Proof.
  unfold spec_encode. rewrite <- digits_count.
  apply list_eq. intros j.
  change (map base32_char (digits 0 input))
    with (base32_char <$> digits 0 input).
  change (map ?f ?l) with (f <$> l).
  rewrite !list_lookup_fmap.
  destruct (decide (j < length (digits 0 input))%nat) as [Hj|Hj].
  - rewrite digits_lookup by (lia || exact Hj).
    rewrite lookup_seq_lt by exact Hj. simpl.
    rewrite base32_char_alphabet by apply window_range. reflexivity.
  - rewrite lookup_ge_None_2 by lia.
    rewrite lookup_ge_None_2 by (rewrite length_seq; lia). reflexivity.
Qed.

Lemma spec_encode_length (input : list byte) :
  Z.of_nat (length (spec_encode input))
  = ceil_div (8 * Z.of_nat (length input)) 5.
Proof.
  unfold spec_encode. rewrite length_map, length_seq.
  unfold ceil_div. zlia.
Qed.

Lemma spec_encode_alphabet (input : list byte) :
  Forall (fun c => In c alphabet /\ byte_to_Z c <> CH_EQ) (spec_encode input).
Proof.
  unfold spec_encode. apply Forall_forall. intros c Hc.
  apply list_elem_of_In, in_map_iff in Hc. destruct Hc as [j [<- _]].
  apply alphabet_symbol_in, window_range.
Qed.

(** What [tr_base32_encode] does to an output buffer that is large enough. *)
Lemma tr_base32_encode_digits (input out : list byte) (ol : option Z) :
  (length (digits 0 input) <= length out)%nat ->
  tr_base32_encode input (Z.of_nat (length input)) (Some out) ol
  = Ok (Some (map base32_char (digits 0 input)
                ++ drop (length (digits 0 input)) out),
        option_map (fun _ => size_wrap (Z.of_nat (length input) * 8 + 4) / 5)
          ol).
Proof.
  intros Hcap. unfold tr_base32_encode.
  pose proof (encode_loop_digits input [] 0 []
    (take (length (digits 0 input)) out)
    (drop (length (digits 0 input)) out)
    (Z.to_nat (8 * Z.of_nat (length input)))) as H.
  cbn [app length] in H. change (Z.of_nat 0) with 0 in H.
  rewrite take_drop in H. rewrite H.
  - destruct ol; reflexivity.
  - lia.
  - rewrite length_take. lia.
  - pose proof (digits_length input 0 ltac:(lia)) as Hl.
    destruct (decide (input = [])) as [->|Hne]; [simpl; lia|]. zlia.
Qed.

(** ** The decoder loop and its digits *)

Lemma load_base32_lookup (lookup : Z) :
  0 <= lookup < base32_lookup_size ->
  exists digit, base32_lookup !! Z.to_nat lookup = Some digit
                /\ load base32_lookup lookup = Ok digit.
Proof.
  intros H. unfold base32_lookup_size in H.
  destruct (base32_lookup !! Z.to_nat lookup) as [d|] eqn:E.
  - exists d. split; [reflexivity|]. apply load_lookup; [lia|exact E].
  - apply lookup_ge_None in E. lia.
Qed.

Lemma omap_cons_eq {A B} (f : A -> option B) (x : A) (l : list A) :
  omap f (x :: l)
  = match f x with
    | Some y => y :: omap f l
    | None => omap f l
    end.
Proof. reflexivity. Qed.

Lemma decode_loop_digits (n : nat) :
  forall input i index offset len out,
  0 <= i -> (Z.to_nat i + n <= length input)%nat ->
  decode_loop n input i index offset len out
  = dec_digits (omap digit_of (take n (drop (Z.to_nat i) input)))
      index offset len out.
Proof.
  induction n as [|n IH]; intros input i index offset len out Hi Hn;
    [reflexivity|].
  destruct (drop (Z.to_nat i) input) as [|c rest] eqn:Ed.
  { apply (f_equal length) in Ed. rewrite length_drop in Ed. simpl in Ed. lia. }
  assert (Hc : input !! Z.to_nat i = Some c).
  { rewrite <- (Nat.add_0_r (Z.to_nat i)), <- lookup_drop, Ed. reflexivity. }
  assert (Hrest : drop (Z.to_nat (i + 1)) input = rest).
  { replace (Z.to_nat (i + 1)) with (Z.to_nat i + 1)%nat by lia.
    rewrite <- drop_drop, Ed. reflexivity. }
  assert (IH' : forall index offset out,
    decode_loop n input (i + 1) index offset len out
    = dec_digits (omap digit_of (take n rest)) index offset len out).
  { intros. rewrite IH by lia. rewrite Hrest. reflexivity. }
  cbn [decode_loop take]. rewrite omap_cons_eq.
  rewrite (load_lookup input i c Hi Hc). cbn [bind].
  unfold digit_of at 1.
  destruct (base32_lookup_size <=? size_wrap (byte_to_Z c - CH_0)) eqn:El.
  { apply IH'. }
  apply Z.leb_gt in El.
  destruct (load_base32_lookup (size_wrap (byte_to_Z c - CH_0)))
    as [digit [Hd Hload]].
  { split; [apply Z.mod_pos_bound; reflexivity|exact El]. }
  rewrite Hd, Hload. cbn [bind].
  destruct (digit =? 255) eqn:E255; [apply IH'|].
  cbn [dec_digits].
  destruct (index <=? 3).
  - destruct ((index + 5) mod 8 =? 0).
    + destruct (store_or out offset digit); cbn [bind]; try reflexivity.
      destruct (len <=? offset + 1); [reflexivity|apply IH'].
    + destruct (store_or out offset _); cbn [bind]; try reflexivity.
      apply IH'.
  - destruct (store_or out offset _); cbn [bind]; try reflexivity.
    destruct (len <=? offset + 1); [reflexivity|].
    destruct (store_or _ (offset + 1) _); cbn [bind]; try reflexivity.
    apply IH'.
Qed.

Lemma digit_of_base32_char (d : Z) :
  0 <= d < 32 -> digit_of (base32_char d) = Some d.
Proof.
  intros H. rewrite <- (Z2Nat.id d) by lia.
  assert (Hn : (Z.to_nat d < 32)%nat) by lia.
  revert Hn. generalize (Z.to_nat d). clear. intros n Hn.
  do 32 (destruct n as [|n]; [vm_compute; reflexivity|]). lia.
Qed.

Lemma omap_digit_of_chars (ds : list Z) :
  Forall (fun d => 0 <= d < 32) ds ->
  omap digit_of (map base32_char ds) = ds.
Proof.
  induction 1 as [|d ds Hd _ IH]; [reflexivity|].
  cbn [map]. rewrite omap_cons_eq, digit_of_base32_char by exact Hd.
  f_equal. exact IH.
Qed.

(** ** Decoding what the encoder emitted *)

Lemma byte_eqb_eq (a b : byte) : byte_eqb a b = true -> a = b.
Proof.
  unfold byte_eqb. intros H. apply Z.eqb_eq in H.
  rewrite <- (Z_to_byte_to_Z a), <- (Z_to_byte_to_Z b), H. reflexivity.
Qed.

(** The spanning step, seen from the decoder: the low part of the current
    byte is completed, and the leading bits of the next byte appear in the
    freshly zeroed byte that follows. *)
Lemma span_step_bytes (c b : byte) (index : Z) :
  4 <= index < 8 ->
  or_byte (top_bits index c)
    (Z.shiftr (span_digit (byte_to_Z c) (byte_to_Z b) index)
       ((index + 5) mod 8)) = c
  /\ or_byte x00
       (Z.shiftl (span_digit (byte_to_Z c) (byte_to_Z b) index)
          (8 - (index + 5) mod 8)) = top_bits ((index + 5) mod 8) b
  /\ or_byte (top_bits index c)
       (Z.shiftr (span_digit (byte_to_Z c) 0 index) ((index + 5) mod 8)) = c.
Proof.
  intros Hi.
  enough (E : byte_eqb (or_byte (top_bits index c)
      (Z.shiftr (span_digit (byte_to_Z c) (byte_to_Z b) index)
         ((index + 5) mod 8))) c
    && byte_eqb (or_byte x00
      (Z.shiftl (span_digit (byte_to_Z c) (byte_to_Z b) index)
         (8 - (index + 5) mod 8))) (top_bits ((index + 5) mod 8) b)
    && byte_eqb (or_byte (top_bits index c)
      (Z.shiftr (span_digit (byte_to_Z c) 0 index) ((index + 5) mod 8))) c
    = true).
  { apply andb_prop in E. destruct E as [E E3].
    apply andb_prop in E. destruct E as [E1 E2].
    auto using byte_eqb_eq. }
  assert (H8 : 0 <= index < 8) by lia.
  case_index H8; try lia; revert c b; clear; apply forall_byte2; vm_compute;
    reflexivity.
Qed.

Lemma plain_step_bytes (c : byte) (index : Z) :
  0 <= index <= 2 ->
  or_byte (top_bits index c)
    (Z.shiftl (plain_digit (byte_to_Z c) index) (8 - (index + 5) mod 8))
  = top_bits (index + 5) c.
Proof.
  intros Hi. apply byte_eqb_eq.
  assert (H8 : 0 <= index < 8) by lia.
  case_index H8; try lia; revert c; clear; apply forall_byte; vm_compute;
    reflexivity.
Qed.

Lemma last_step_bytes (c : byte) :
  or_byte (top_bits 3 c) (plain_digit (byte_to_Z c) 3) = c.
Proof.
  apply byte_eqb_eq. revert c. apply forall_byte. vm_compute. reflexivity.
Qed.

Lemma top_bits_0 (c : byte) : top_bits 0 c = x00.
Proof.
  apply byte_eqb_eq. revert c. apply forall_byte. vm_compute. reflexivity.
Qed.

Lemma store_or_mid (pre : list byte) (x : byte) (post : list byte) (i v : Z) :
  i = Z.of_nat (length pre) ->
  store_or (pre ++ x :: post) i v = Ok (pre ++ or_byte x v :: post).
Proof. apply store_or_app_mid. Qed.

(** The decoder, run on the digits the encoder emits from bit [index] of
    the byte [c] on, completes [c] and the bytes after it.  [pre] is what
    was decoded before, [top_bits index c] the part of [c] already there. *)
Lemma dec_digits_roundtrip (tl : list byte) :
  forall (c : byte) (index : Z) (pre tail : list byte),
  0 <= index < 8 ->
  dec_digits (digits index (c :: tl)) index (Z.of_nat (length pre))
    (Z.of_nat (length pre) + Z.of_nat (length (c :: tl)))
    (pre ++ top_bits index c :: replicate (length tl) x00 ++ tail)
  = Ok (pre ++ c :: tl ++ tail).
Proof.
  induction tl as [|b tl IH]; intros c index pre tail Hi.
  - (* the last byte *)
    assert (Hhigh : forall index, 3 < index < 8 ->
      dec_digits (digits index [c]) index (Z.of_nat (length pre))
        (Z.of_nat (length pre) + Z.of_nat (length [c]))
        (pre ++ top_bits index c :: replicate (length (@nil byte)) x00 ++ tail)
      = Ok (pre ++ c :: [] ++ tail)).
    { clear index Hi. intros index Hi. rewrite digits_high by lia.
      cbn [dec_digits next_of length replicate app].
      replace (index <=? 3) with false by (symmetry; apply Z.leb_gt; lia).
      rewrite store_or_mid by reflexivity. cbn [bind].
      destruct (span_step_bytes c c index) as (_ & _ & ->); [lia|].
      replace (_ <=? _) with true by (symmetry; apply Z.leb_le; lia).
      reflexivity. }
    destruct (Z_le_gt_dec index 3) as [Hlo|Hhi]; [|apply Hhigh; lia].
    destruct (Z.eq_dec index 3) as [->|Hne].
    + rewrite digits_three. cbn [dec_digits length replicate app].
      change (3 <=? 3) with true. change ((3 + 5) mod 8 =? 0) with true.
      cbn match. rewrite store_or_mid by reflexivity. cbn [bind].
      rewrite last_step_bytes.
      replace (_ <=? _) with true by (symmetry; apply Z.leb_le; lia).
      reflexivity.
    + rewrite digits_low by lia. cbn [dec_digits].
      replace (index <=? 3) with true by (symmetry; apply Z.leb_le; lia).
      replace ((index + 5) mod 8 =? 0) with false
        by (symmetry; apply Z.eqb_neq; zlia).
      rewrite store_or_mid by reflexivity. cbn [bind].
      rewrite plain_step_bytes by lia.
      replace ((index + 5) mod 8) with (index + 5) by zlia.
      apply Hhigh. lia.
  - (* a byte with a successor *)
    assert (Hhigh : forall index, 3 < index < 8 ->
      dec_digits (digits index (c :: b :: tl)) index (Z.of_nat (length pre))
        (Z.of_nat (length pre) + Z.of_nat (length (c :: b :: tl)))
        (pre ++ top_bits index c :: replicate (length (b :: tl)) x00 ++ tail)
      = Ok (pre ++ c :: (b :: tl) ++ tail)).
    { clear index Hi. intros index Hi. rewrite digits_high by lia.
      cbn [dec_digits next_of].
      replace (index <=? 3) with false by (symmetry; apply Z.leb_gt; lia).
      rewrite store_or_mid by reflexivity. cbn [bind].
      destruct (span_step_bytes c b index) as (-> & Hb & _); [lia|].
      replace (_ <=? _) with false
        by (symmetry; apply Z.leb_gt; cbn [length]; lia).
      cbn [length replicate app].
      replace (pre ++ c :: x00 :: replicate (length tl) x00 ++ tail)
        with ((pre ++ [c]) ++ x00 :: replicate (length tl) x00 ++ tail)
        by (rewrite <- app_assoc; reflexivity).
      rewrite store_or_mid by (rewrite length_app; simpl; lia).
      cbn [bind]. rewrite Hb.
      replace (Z.of_nat (length pre) + 1)
        with (Z.of_nat (length (pre ++ [c])))
        by (rewrite length_app; simpl; lia).
      replace (Z.of_nat (length pre) + Z.of_nat (S (S (length tl))))
        with (Z.of_nat (length (pre ++ [c])) + Z.of_nat (length (b :: tl)))
        by (rewrite length_app; simpl; lia).
      rewrite IH by zlia. rewrite <- app_assoc. reflexivity. }
    destruct (Z_le_gt_dec index 3) as [Hlo|Hhi]; [|apply Hhigh; lia].
    destruct (Z.eq_dec index 3) as [->|Hne].
    + rewrite digits_three. cbn [dec_digits].
      change (3 <=? 3) with true. change ((3 + 5) mod 8 =? 0) with true.
      cbn match. rewrite store_or_mid by reflexivity. cbn [bind].
      rewrite last_step_bytes.
      replace (_ <=? _) with false
        by (symmetry; apply Z.leb_gt; cbn [length]; lia).
      change ((3 + 5) mod 8) with 0.
      cbn [length replicate app].
      replace (pre ++ c :: x00 :: replicate (length tl) x00 ++ tail)
        with ((pre ++ [c]) ++ top_bits 0 b
                :: replicate (length tl) x00 ++ tail)
        by (rewrite top_bits_0, <- app_assoc; reflexivity).
      replace (Z.of_nat (length pre) + 1)
        with (Z.of_nat (length (pre ++ [c])))
        by (rewrite length_app; simpl; lia).
      replace (Z.of_nat (length pre) + Z.of_nat (S (S (length tl))))
        with (Z.of_nat (length (pre ++ [c])) + Z.of_nat (length (b :: tl)))
        by (rewrite length_app; simpl; lia).
      rewrite IH by lia. rewrite <- app_assoc. reflexivity.
    + rewrite digits_low by lia. cbn [dec_digits].
      replace (index <=? 3) with true by (symmetry; apply Z.leb_le; lia).
      replace ((index + 5) mod 8 =? 0) with false
        by (symmetry; apply Z.eqb_neq; zlia).
      rewrite store_or_mid by reflexivity. cbn [bind].
      rewrite plain_step_bytes by lia.
      replace ((index + 5) mod 8) with (index + 5) by zlia.
      apply Hhigh. lia.
Qed.

(** ** Padding and the whole of [tr_base32_decode] *)

Lemma strip_trailing_snoc (l : list byte) (c : byte) :
  strip_trailing (l ++ [c])
  = if is_pad c then strip_trailing l else l ++ [c].
Proof.
  unfold strip_trailing. rewrite rev_app_distr. cbn [rev app drop_pad].
  destruct (is_pad c); [reflexivity|].
  cbn [rev]. rewrite rev_involutive. reflexivity.
Qed.

Lemma strip_trailing_prefix (l : list byte) :
  take (length (strip_trailing l)) l = strip_trailing l.
Proof.
  induction l as [|c l IH] using rev_ind; [reflexivity|].
  rewrite strip_trailing_snoc. destruct (is_pad c).
  - rewrite take_app_le by (rewrite <- IH at 1; rewrite length_take; lia).
    exact IH.
  - apply firstn_all.
Qed.

Lemma strip_trailing_length (l : list byte) :
  (length (strip_trailing l) <= length l)%nat.
Proof.
  rewrite <- (strip_trailing_prefix l) at 1. rewrite length_take. lia.
Qed.

Lemma strip_trailing_id (l : list byte) :
  Forall (fun c => byte_to_Z c <> CH_EQ) l -> strip_trailing l = l.
Proof.
  destruct l as [|c l _] using rev_ind; [reflexivity|].
  intros H. rewrite strip_trailing_snoc.
  apply Forall_app in H. destruct H as [_ H]. inversion H; subst.
  unfold is_pad. replace (_ =? _) with false; [reflexivity|].
  symmetry. apply Z.eqb_neq. assumption.
Qed.

Lemma strip_padding_spec (n : nat) :
  forall input, (n <= length input)%nat ->
  strip_padding n input (Z.of_nat n)
  = Ok (Z.of_nat (length (strip_trailing (take n input)))).
Proof.
  induction n as [|n IH]; intros input Hn; [reflexivity|].
  destruct (input !! n) as [c|] eqn:Ec;
    [|apply lookup_ge_None in Ec; lia].
  rewrite (take_S_r _ _ _ Ec), strip_trailing_snoc.
  cbn [strip_padding].
  replace (0 <? Z.of_nat (S n)) with true by (symmetry; apply Z.ltb_lt; lia).
  replace (Z.of_nat (S n) - 1) with (Z.of_nat n) by lia.
  rewrite (load_lookup input (Z.of_nat n) c) by (rewrite ?Nat2Z.id; auto; lia).
  cbn [bind]. unfold is_pad. destruct (byte_to_Z c =? CH_EQ).
  - apply IH. lia.
  - rewrite length_app, length_take. cbn [length]. f_equal. lia.
Qed.

Lemma memset_prefix (buf : list byte) (n : Z) :
  0 <= n <= Z.of_nat (length buf) ->
  memset buf 0 NUL n
  = Ok (replicate (Z.to_nat n) x00 ++ drop (Z.to_nat n) buf).
Proof.
  intros H. unfold memset.
  replace (0 <=? n) with true by (symmetry; apply Z.leb_le; lia).
  replace (0 + n <=? Z.of_nat (length buf)) with true
    by (symmetry; apply Z.leb_le; lia).
  reflexivity.
Qed.

(** [tr_base32_decode] on an output buffer that holds the computed length:
    the padding is stripped, the length reported, that many bytes zeroed and
    the recognised digits of what is left decoded. *)
Lemma tr_base32_decode_digits (input out : list byte) (n : nat)
    (ol : option Z) :
  (n <= length input)%nat ->
  decoded_length (take n input) <= Z.of_nat (length out) ->
  tr_base32_decode input (Z.of_nat n) (Some out) ol
  = do out' <-
      dec_digits (omap digit_of (strip_trailing (take n input))) 0 0
        (decoded_length (take n input))
        (replicate (Z.to_nat (decoded_length (take n input))) x00
           ++ drop (Z.to_nat (decoded_length (take n input))) out);
    Ok (Some out', option_map (fun _ => decoded_length (take n input)) ol).
Proof.
  intros Hn Hcap. unfold tr_base32_decode.
  rewrite Nat2Z.id, strip_padding_spec by exact Hn. cbn [bind].
  fold (decoded_length (take n input)).
  assert (H0 : 0 <= decoded_length (take n input)).
  { unfold decoded_length, size_wrap. apply Z.div_pos; [|lia].
    apply Z.mod_pos_bound. reflexivity. }
  rewrite memset_prefix by lia. cbn [bind].
  rewrite decode_loop_digits
    by (pose proof (strip_trailing_length (take n input)) as Hs;
        rewrite length_take in Hs; lia).
  rewrite Nat2Z.id. change (Z.to_nat 0) with 0%nat. rewrite drop_0.
  replace (take (length (strip_trailing (take n input))) input)
    with (strip_trailing (take n input)).
  - destruct (dec_digits _ _ _ _ _); destruct ol; reflexivity.
  - rewrite <- (strip_trailing_prefix (take n input)) at 1.
    rewrite take_take. f_equal.
    pose proof (strip_trailing_length (take n input)) as Hs.
    rewrite length_take in Hs. lia.
Qed.

(** ** Results on the base-32 codec *)

Lemma stream_bit_past_end (input : list byte) (k : Z) :
  8 * Z.of_nat (length input) <= k -> stream_bit input k = false.
Proof.
  intros H. unfold stream_bit.
  rewrite lookup_ge_None_2; [reflexivity|]. zlia.
Qed.

Lemma size_wrap_small (x : Z) : 0 <= x < SIZE_MOD -> size_wrap x = x.
Proof. intros H. unfold size_wrap. apply Z.mod_small, H. Qed.

(** C6: on [n] input bytes and an output buffer with room for
    [ceil (8 * n / 5)] symbols, [tr_base32_encode] returns normally (so it
    read no byte outside the [n] given ones), writes exactly that many
    symbols and leaves the rest of the buffer alone; symbol [j] is the
    alphabet entry of bits [5 * j .. 5 * j + 4] of the input read as a
    bitstream, most significant bit first, with zeros past its end; every
    symbol is one of [ABCDEFGHIJKLMNOPQRSTUVWXYZ234567], none is ['=']. *)
Theorem base32_encode_emits_bit_groups (input out : list byte)
    (ol : option Z) :
  ceil_div (8 * Z.of_nat (length input)) 5 <= Z.of_nat (length out) ->
  tr_base32_encode input (Z.of_nat (length input)) (Some out) ol
  = Ok (Some (spec_encode input
              ++ drop (Z.to_nat (ceil_div (8 * Z.of_nat (length input)) 5)) out),
        option_map (fun _ => size_wrap (Z.of_nat (length input) * 8 + 4) / 5)
          ol)
  /\ Z.of_nat (length (spec_encode input))
     = ceil_div (8 * Z.of_nat (length input)) 5
  /\ 8 * Z.of_nat (length input)
     <= 5 * ceil_div (8 * Z.of_nat (length input)) 5
     < 8 * Z.of_nat (length input) + 5
  /\ Forall (fun c => In c alphabet /\ byte_to_Z c <> CH_EQ)
       (spec_encode input)
  /\ (forall k, 8 * Z.of_nat (length input) <= k ->
      stream_bit input k = false).
Proof.
  intros Hcap. repeat split.
  - rewrite tr_base32_encode_digits by (rewrite digits_count; lia).
    rewrite digits_spec, digits_count. reflexivity.
  - apply spec_encode_length.
  - unfold ceil_div. zlia.
  - unfold ceil_div. zlia.
  - apply spec_encode_alphabet.
  - apply stream_bit_past_end.
Qed.

Lemma base32_encode_emits_bit_groups_witness :
  tr_base32_encode [x66; x6f; x6f] (Z.of_nat (length [x66; x6f; x6f]))
    (Some (replicate 6 x00)) (Some 0)
  = Ok (Some [x4d; x5a; x58; x57; x36; x00], Some 5).
Proof.
  apply (base32_encode_emits_bit_groups [x66; x6f; x6f] (replicate 6 x00)
           (Some 0)).
  vm_compute. discriminate.
Defined.

(** C1: encoding [b] and decoding the result gives [b] back.  The encoder
    reports [ceil (8 * len / 5)] symbols; the decoder, given that many
    characters of the encoder's output, reports
    [floor (5 * ceil (8 * len / 5) / 8) = len] bytes and stores exactly the
    bytes of [b] there, the rest of its buffer being left as it was; the
    padding bits of the last symbol are zero bits of the stream and end up
    in no output byte.  The length computations must fit [size_t]. *)
Theorem base32_roundtrip (b enc_buf dec_buf : list byte) (l1 l2 : Z) :
  8 * Z.of_nat (length b) + 4 < SIZE_MOD ->
  ceil_div (8 * Z.of_nat (length b)) 5 <= Z.of_nat (length enc_buf) ->
  Z.of_nat (length b) <= Z.of_nat (length dec_buf) ->
  exists enc : list byte,
    tr_base32_encode b (Z.of_nat (length b)) (Some enc_buf) (Some l1)
    = Ok (Some enc, Some (ceil_div (8 * Z.of_nat (length b)) 5))
    /\ tr_base32_decode enc (ceil_div (8 * Z.of_nat (length b)) 5)
         (Some dec_buf) (Some l2)
       = Ok (Some (b ++ drop (length b) dec_buf),
             Some (Z.of_nat (length b)))
    /\ 5 * ceil_div (8 * Z.of_nat (length b)) 5 / 8 = Z.of_nat (length b)
    /\ (forall k, 8 * Z.of_nat (length b) <= k -> stream_bit b k = false).
Proof.
  intros Hsize Hcap1 Hcap2.
  set (m := ceil_div (8 * Z.of_nat (length b)) 5) in *.
  assert (Hm : m = Z.of_nat (length (digits 0 b)))
    by (rewrite digits_count; unfold m, ceil_div; zlia).
  assert (Hfloor : 5 * m / 8 = Z.of_nat (length b))
    by (unfold m, ceil_div; zlia).
  exists (map base32_char (digits 0 b) ++ drop (length (digits 0 b)) enc_buf).
  split; [|split; [|split; [exact Hfloor|apply stream_bit_past_end]]].
  - rewrite tr_base32_encode_digits by lia. cbn [option_map].
    rewrite size_wrap_small by lia.
    rewrite <- ceil_div_5_length by lia. reflexivity.
  - rewrite Hm.
    assert (Htake : take (length (digits 0 b))
              (map base32_char (digits 0 b)
                 ++ drop (length (digits 0 b)) enc_buf)
            = map base32_char (digits 0 b)).
    { rewrite take_app_le by (rewrite length_map; lia).
      apply firstn_all2. rewrite length_map. lia. }
    assert (Hstrip : strip_trailing (map base32_char (digits 0 b))
                     = map base32_char (digits 0 b)).
    { apply strip_trailing_id. rewrite digits_spec.
      eapply Forall_impl; [apply spec_encode_alphabet|].
      intros c [_ Hc]. exact Hc. }
    assert (Hlen : decoded_length (map base32_char (digits 0 b))
                   = Z.of_nat (length b)).
    { unfold decoded_length. rewrite Hstrip, length_map, <- Hm.
      rewrite size_wrap_small by (unfold m, ceil_div in *; zlia).
      rewrite Z.mul_comm. exact Hfloor. }
    rewrite tr_base32_decode_digits; rewrite ?Htake, ?Hlen, ?Hstrip;
      [|rewrite length_app, length_map; lia|lia].
    rewrite omap_digit_of_chars by (apply digits_range; lia).
    rewrite Nat2Z.id.
    destruct b as [|c tl]; [reflexivity|].
    pose proof (dec_digits_roundtrip tl c 0 [] (drop (length (c :: tl)) dec_buf)
                  ltac:(lia)) as Hrt.
    cbn [app length] in Hrt. rewrite top_bits_0 in Hrt.
    change (Z.of_nat 0 + Z.of_nat (S (length tl)))
      with (Z.of_nat (S (length tl))) in Hrt.
    change (Z.of_nat 0) with 0 in Hrt.
    cbn [length replicate app]. rewrite Hrt. reflexivity.
Qed.

Lemma base32_roundtrip_witness :
  exists enc : list byte,
    tr_base32_encode [x66; x6f] (Z.of_nat (length [x66; x6f]))
      (Some (replicate 4 xff)) (Some 0)
    = Ok (Some enc, Some (ceil_div (8 * Z.of_nat (length [x66; x6f])) 5))
    /\ tr_base32_decode enc (ceil_div (8 * Z.of_nat (length [x66; x6f])) 5)
         (Some (replicate 3 xff)) (Some 0)
       = Ok (Some ([x66; x6f] ++ drop (length [x66; x6f]) (replicate 3 xff)),
             Some (Z.of_nat (length [x66; x6f])))
    /\ 5 * ceil_div (8 * Z.of_nat (length [x66; x6f])) 5 / 8
       = Z.of_nat (length [x66; x6f])
    /\ (forall k, 8 * Z.of_nat (length [x66; x6f]) <= k ->
        stream_bit [x66; x6f] k = false).
Proof.
  apply (base32_roundtrip [x66; x6f] (replicate 4 xff) (replicate 3 xff) 0 0).
  - vm_compute. reflexivity.
  - vm_compute. discriminate.
  - vm_compute. discriminate.
Defined.

(** C10: with [output == NULL] both functions only compute the length: it
    is stored into [*output_length] when that pointer is not [NULL], and
    there is no output buffer in the result, the only other object either
    function could have written.  The encoder does not even read its input;
    the decoder reads it to strip the padding. *)
Theorem base32_null_output_is_length_query (input : list byte)
    (input_length : Z) (n : nat) (ol : option Z) :
  (n <= length input)%nat ->
  tr_base32_encode input input_length None ol
  = Ok (None, option_map (fun _ => size_wrap (input_length * 8 + 4) / 5) ol)
  /\ tr_base32_decode input (Z.of_nat n) None ol
     = Ok (None, option_map (fun _ => decoded_length (take n input)) ol).
Proof.
  intros Hn. split.
  - unfold tr_base32_encode. destruct ol; reflexivity.
  - unfold tr_base32_decode.
    rewrite Nat2Z.id, strip_padding_spec by exact Hn.
    cbn [bind]. destruct ol; reflexivity.
Qed.

Lemma base32_null_output_is_length_query_witness :
  tr_base32_encode [x4d; x5a; x3d] 3 None (Some 0) = Ok (None, Some 5)
  /\ tr_base32_decode [x4d; x5a; x3d] (Z.of_nat 3) None (Some 0)
     = Ok (None, Some 1).
Proof.
  apply (base32_null_output_is_length_query [x4d; x5a; x3d] 3 3 (Some 0)).
  vm_compute. lia.
Defined.

(** ** Where the decoder writes *)

Lemma store_or_lookup (out : list byte) (i v : Z) (x : byte) :
  0 <= i -> out !! Z.to_nat i = Some x ->
  store_or out i v = Ok (<[Z.to_nat i := or_byte x v]> out).
Proof.
  intros Hi Hx. unfold store_or. rewrite (load_lookup out i x Hi Hx).
  cbn [bind]. unfold store, in_bounds.
  pose proof (lookup_lt_Some _ _ _ Hx).
  replace (0 <=? i) with true by (symmetry; apply Z.leb_le; lia).
  replace (i <? Z.of_nat (length out)) with true
    by (symmetry; apply Z.ltb_lt; lia).
  reflexivity.
Qed.

Lemma store_or_in_range (out : list byte) (i v : Z) :
  0 <= i < Z.of_nat (length out) ->
  exists x, out !! Z.to_nat i = Some x
            /\ store_or out i v = Ok (<[Z.to_nat i := or_byte x v]> out).
Proof.
  intros Hi. destruct (out !! Z.to_nat i) as [x|] eqn:E.
  - exists x. split; [reflexivity|]. apply store_or_lookup; [lia|exact E].
  - apply lookup_ge_None in E. lia.
Qed.

(** Inside a buffer that holds [len] bytes, and at least one, the decoder
    never faults, and it writes only from [offset] on and only below
    [len], the byte at [offset] itself excepted. *)
Lemma dec_digits_frame (ds : list Z) (len : Z) :
  forall index offset out,
  0 <= offset < Z.of_nat (length out) -> len <= Z.of_nat (length out) ->
  exists out',
    dec_digits ds index offset len out = Ok out'
    /\ length out' = length out
    /\ forall j : nat,
         Z.of_nat j < offset \/ (len <= Z.of_nat j /\ offset < Z.of_nat j) ->
         out' !! j = out !! j.
Proof.
  induction ds as [|d ds IH]; intros index offset out Ho Hl.
  { exists out. auto. }
  assert (Hstore : forall v,
    exists out1, store_or out offset v = Ok out1
      /\ length out1 = length out
      /\ forall j : nat, Z.of_nat j <> offset -> out1 !! j = out !! j).
  { intros v. destruct (store_or_in_range out offset v Ho) as [x [_ ->]].
    eexists. split; [reflexivity|]. split; [apply length_insert|].
    intros j Hj. apply list_lookup_insert_ne. lia. }
  assert (Hcont : forall index out1,
    length out1 = length out ->
    (forall j : nat, Z.of_nat j <> offset -> out1 !! j = out !! j) ->
    exists out',
      dec_digits ds index offset len out1 = Ok out'
      /\ length out' = length out
      /\ forall j : nat,
           Z.of_nat j < offset \/ (len <= Z.of_nat j /\ offset < Z.of_nat j) ->
           out' !! j = out !! j).
  { intros index1 out1 Hlen1 Hsame1.
    destruct (IH index1 offset out1) as [out' (-> & Hlen' & Hsame')];
      [lia|lia|].
    exists out'. split; [reflexivity|]. split; [lia|].
    intros j Hj. rewrite Hsame' by exact Hj. apply Hsame1. lia. }
  assert (Hnext : forall index out1,
    length out1 = length out ->
    (forall j : nat, Z.of_nat j <> offset -> out1 !! j = out !! j) ->
    exists out',
      (if len <=? offset + 1 then Ok out1
       else dec_digits ds index (offset + 1) len out1) = Ok out'
      /\ length out' = length out
      /\ forall j : nat,
           Z.of_nat j < offset \/ (len <= Z.of_nat j /\ offset < Z.of_nat j) ->
           out' !! j = out !! j).
  { intros index1 out1 Hlen1 Hsame1.
    destruct (len <=? offset + 1) eqn:E.
    - exists out1. split; [reflexivity|]. split; [exact Hlen1|].
      intros j Hj. apply Hsame1. lia.
    - apply Z.leb_gt in E.
      destruct (IH index1 (offset + 1) out1) as [out' (-> & Hlen' & Hsame')];
        [lia|lia|].
      exists out'. split; [reflexivity|]. split; [lia|].
      intros j Hj. rewrite Hsame' by lia. apply Hsame1. lia. }
  cbn [dec_digits]. destruct (index <=? 3).
  - destruct ((index + 5) mod 8 =? 0).
    + destruct (Hstore d) as [out1 (-> & Hlen1 & Hsame1)]. cbn [bind].
      apply Hnext; assumption.
    + destruct (Hstore (Z.shiftl d (8 - (index + 5) mod 8)))
        as [out1 (-> & Hlen1 & Hsame1)]. cbn [bind].
      apply Hcont; assumption.
  - destruct (Hstore (Z.shiftr d ((index + 5) mod 8)))
      as [out1 (-> & Hlen1 & Hsame1)]. cbn [bind].
    destruct (len <=? offset + 1) eqn:E.
    + exists out1. split; [reflexivity|]. split; [exact Hlen1|].
      intros j Hj. apply Hsame1. lia.
    + apply Z.leb_gt in E.
      destruct (store_or_in_range out1 (offset + 1)
                  (Z.shiftl d (8 - (index + 5) mod 8)) ltac:(lia))
        as [x [_ ->]]. cbn [bind].
      destruct (IH ((index + 5) mod 8) (offset + 1)
                  (<[Z.to_nat (offset + 1) := or_byte x
                       (Z.shiftl d (8 - (index + 5) mod 8))]> out1))
        as [out' (-> & Hlen' & Hsame')];
        [rewrite length_insert; lia|rewrite length_insert; lia|].
      exists out'. split; [reflexivity|].
      split; [rewrite Hlen', length_insert; exact Hlen1|].
      intros j Hj. rewrite Hsame' by lia.
      rewrite list_lookup_insert_ne by lia. apply Hsame1. lia.
Qed.

(** With room for the computed length, and for one byte at least, a run of
    [tr_base32_decode] returns normally, reports the computed length and
    leaves every byte from position [max 1 length] on as it was. *)
Lemma tr_base32_decode_frame (input out : list byte) (n : nat)
    (ol : option Z) :
  (n <= length input)%nat ->
  (0 < length out)%nat ->
  decoded_length (take n input) <= Z.of_nat (length out) ->
  exists out',
    tr_base32_decode input (Z.of_nat n) (Some out) ol
    = Ok (Some out', option_map (fun _ => decoded_length (take n input)) ol)
    /\ length out' = length out
    /\ forall j : nat,
         decoded_length (take n input) <= Z.of_nat j -> (0 < j)%nat ->
         out' !! j = out !! j.
Proof.
  intros Hn Hpos Hcap.
  rewrite tr_base32_decode_digits by assumption.
  set (len := decoded_length (take n input)) in *.
  assert (H0 : 0 <= len).
  { unfold len, decoded_length, size_wrap. apply Z.div_pos; [|lia].
    apply Z.mod_pos_bound. reflexivity. }
  assert (Hlen : length (replicate (Z.to_nat len) x00 ++ drop (Z.to_nat len) out)
                 = length out).
  { rewrite length_app, length_replicate, length_drop. lia. }
  destruct (dec_digits_frame
              (omap digit_of (strip_trailing (take n input))) len 0 0
              (replicate (Z.to_nat len) x00 ++ drop (Z.to_nat len) out))
    as [out' (-> & Hlen' & Hsame)]; [lia|lia|].
  exists out'. cbn [bind]. split; [reflexivity|]. split; [lia|].
  intros j Hj Hj0. rewrite Hsame by lia.
  rewrite lookup_app_r by (rewrite length_replicate; lia).
  rewrite length_replicate, lookup_drop. f_equal. lia.
Qed.

(** C7, at the input where the code departs from it: for the one-character
    input ["B"] the computed length is [0], yet the loop stores [0x08] into
    [output_bytes[0]]; in a buffer of exactly the computed length that is a
    write outside the buffer. *)
Theorem base32_decode_writes_at_zero_length :
  tr_base32_decode [x42] 1 (Some [x00; x00]) (Some 7)
  = Ok (Some [x08; x00], Some 0)
  /\ tr_base32_decode [x42] 1 (Some []) (Some 7) = Fault.
Proof. split; vm_compute; reflexivity. Qed.

(** ** Characters the decoder skips *)









Lemma decoded_length_small (input : list byte) :
  Z.of_nat (length input) * 5 < SIZE_MOD ->
  decoded_length input = Z.of_nat (length (strip_trailing input)) * 5 / 8.
Proof.
  intros H. unfold decoded_length.
  pose proof (strip_trailing_length input).
  rewrite size_wrap_small by lia. reflexivity.
Qed.





(** ** Results on [tr_dh_align_key] *)

Lemma fold_be_zeros (k : nat) (l : list byte) :
  fold_left (fun acc b => 256 * acc + byte_to_Z b) (replicate k x00 ++ l) 0
  = fold_left (fun acc b => 256 * acc + byte_to_Z b) l 0.
Proof. induction k as [|k IH]; [reflexivity|exact IH]. Qed.

Lemma be_value_zeros (k : nat) (l : list byte) :
  be_value (replicate k x00 ++ l) = be_value l.
Proof. apply fold_be_zeros. Qed.

Lemma read_bytes_ok (buf : list byte) (off n : Z) :
  0 <= off -> 0 <= n -> off + n <= Z.of_nat (length buf) ->
  read_bytes buf off n = Ok (take (Z.to_nat n) (drop (Z.to_nat off) buf)).
Proof.
  intros H1 H2 H3. unfold read_bytes.
  apply Z.leb_le in H1, H2, H3. rewrite H1, H2, H3. reflexivity.
Qed.

Lemma write_bytes_ok (buf : list byte) (off : Z) (data : list byte) :
  0 <= off -> off + Z.of_nat (length data) <= Z.of_nat (length buf) ->
  write_bytes buf off data
  = Ok (take (Z.to_nat off) buf ++ data
          ++ drop (Z.to_nat off + length data) buf).
Proof.
  intros H1 H2. unfold write_bytes.
  apply Z.leb_le in H1, H2. rewrite H1, H2. reflexivity.
Qed.

Lemma tr_dh_align_key_spec (key_buffer : list byte)
    (key_size buffer_size : Z) :
  0 <= key_size <= buffer_size ->
  buffer_size <= Z.of_nat (length key_buffer) ->
  tr_dh_align_key key_buffer key_size buffer_size
  = Ok (replicate (Z.to_nat (buffer_size - key_size)) x00
          ++ take (Z.to_nat key_size) key_buffer
          ++ drop (Z.to_nat buffer_size) key_buffer).
Proof.
  intros Hk Hb. unfold tr_dh_align_key.
  replace (key_size <=? buffer_size) with true
    by (symmetry; apply Z.leb_le; lia).
  cbn [negb]. destruct (key_size <? buffer_size) eqn:E.
  - apply Z.ltb_lt in E. unfold memmove.
    rewrite read_bytes_ok by lia. cbn [bind].
    change (Z.to_nat 0) with 0%nat. rewrite drop_0.
    rewrite write_bytes_ok by (rewrite ?length_take; lia). cbn [bind].
    rewrite memset_prefix
      by (rewrite ?length_app, ?length_take, ?length_drop; lia).
    f_equal. f_equal.
    rewrite drop_app_length' by (rewrite length_take; lia).
    f_equal. f_equal. rewrite length_take. lia.
  - apply Z.ltb_ge in E. assert (key_size = buffer_size) by lia. subst.
    rewrite Z.sub_diag. cbn [Z.to_nat replicate app].
    rewrite take_drop. reflexivity.
Qed.

(** C5: when [key_size <= buffer_size], [tr_dh_align_key] leaves the first
    [key_size] bytes of the buffer as its last [key_size] bytes, with
    [buffer_size - key_size] zero bytes in front, so the buffer still holds
    the same big-endian number; the key is never left at the front with
    zeros behind it, and nothing after the buffer is touched. *)
Theorem dh_align_key_right_aligns (key_buffer : list byte)
    (key_size buffer_size : Z) :
  0 <= key_size <= buffer_size ->
  buffer_size <= Z.of_nat (length key_buffer) ->
  exists aligned : list byte,
    tr_dh_align_key key_buffer key_size buffer_size = Ok aligned
    /\ length aligned = length key_buffer
    /\ take (Z.to_nat (buffer_size - key_size)) aligned
       = replicate (Z.to_nat (buffer_size - key_size)) x00
    /\ take (Z.to_nat key_size)
         (drop (Z.to_nat (buffer_size - key_size)) aligned)
       = take (Z.to_nat key_size) key_buffer
    /\ drop (Z.to_nat buffer_size) aligned
       = drop (Z.to_nat buffer_size) key_buffer
    /\ be_value (take (Z.to_nat buffer_size) aligned)
       = be_value (take (Z.to_nat key_size) key_buffer).
Proof.
  intros Hk Hb. eexists. split; [apply tr_dh_align_key_spec; assumption|].
  set (z := replicate (Z.to_nat (buffer_size - key_size)) x00).
  set (k := take (Z.to_nat key_size) key_buffer).
  set (t := drop (Z.to_nat buffer_size) key_buffer).
  assert (Hz : length z = Z.to_nat (buffer_size - key_size))
    by (unfold z; apply length_replicate).
  assert (Hkl : length k = Z.to_nat key_size)
    by (unfold k; rewrite length_take; lia).
  assert (Ht : length t = (length key_buffer - Z.to_nat buffer_size)%nat)
    by (unfold t; apply length_drop).
  repeat split.
  - rewrite !length_app. lia.
  - rewrite <- Hz. apply take_app_length.
  - rewrite <- Hz, drop_app_length, <- Hkl. apply take_app_length.
  - rewrite app_assoc. apply drop_app_length'. rewrite length_app. lia.
  - rewrite app_assoc, take_app_length' by (rewrite length_app; lia).
    apply be_value_zeros.
Qed.

Lemma dh_align_key_right_aligns_witness :
  exists aligned : list byte,
    tr_dh_align_key [x12; x34; xaa; xbb; xcc] 2 4 = Ok aligned
    /\ length aligned = length [x12; x34; xaa; xbb; xcc]
    /\ take (Z.to_nat (4 - 2)) aligned = replicate (Z.to_nat (4 - 2)) x00
    /\ take (Z.to_nat 2) (drop (Z.to_nat (4 - 2)) aligned)
       = take (Z.to_nat 2) [x12; x34; xaa; xbb; xcc]
    /\ drop (Z.to_nat 4) aligned = drop (Z.to_nat 4) [x12; x34; xaa; xbb; xcc]
    /\ be_value (take (Z.to_nat 4) aligned)
       = be_value (take (Z.to_nat 2) [x12; x34; xaa; xbb; xcc]).
Proof.
  apply (dh_align_key_right_aligns [x12; x34; xaa; xbb; xcc] 2 4).
  - lia.
  - vm_compute. discriminate.
Defined.

(** The caller: a generated key of at most [dh_size] bytes ends up
    right-aligned in the first [dh_size] bytes of [public_key]. *)
Lemma tr_dh_make_key_aligned (my_public_key public_key : list byte)
    (dh_size : Z) (pkl : option Z) :
  Z.of_nat (length my_public_key) <= dh_size ->
  dh_size <= Z.of_nat (length public_key) ->
  tr_dh_make_key (Some my_public_key) dh_size public_key pkl
  = Ok (true,
        replicate (Z.to_nat dh_size - length my_public_key) x00
          ++ my_public_key ++ drop (Z.to_nat dh_size) public_key,
        option_map (fun _ => dh_size) pkl).
Proof.
  intros Hk Hd. unfold tr_dh_make_key.
  rewrite write_bytes_ok by lia.
  change (Z.to_nat 0) with 0%nat. cbn [bind take app Nat.add].
  rewrite tr_dh_align_key_spec by (rewrite ?length_app, ?length_drop; lia).
  cbn [bind]. rewrite Nat2Z.id, take_0, app_nil_l, take_app_length.
  rewrite drop_app_ge by lia. rewrite drop_drop.
  replace (length my_public_key + (Z.to_nat dh_size - length my_public_key))%nat
    with (Z.to_nat dh_size) by lia.
  replace (Z.to_nat (dh_size - Z.of_nat (length my_public_key)))
    with (Z.to_nat dh_size - length my_public_key)%nat by lia.
  destruct pkl; reflexivity.
Qed.

(** ** Results on [tr_rand_int] *)

Section RandIntFacts.

(** The contract of the C library's [rand]: [0 <= rand () <= RAND_MAX]. *)
Variable RAND_MAX : Z.
Variable srand : Z -> Z.
Variable rand : Z -> Z * Z.
Hypothesis rand_range : forall g, 0 <= fst (rand g) <= RAND_MAX.


End RandIntFacts.










(** ** The reference SHA-1 *)

Lemma sha1_ref_length (msg : list byte) :
  length (SHA1.sha1 msg) = 20%nat.
Proof.
  unfold SHA1.sha1. destruct (SHA1.digest_state msg) as [[[[h0 h1] h2] h3] h4].
  reflexivity.
Qed.

(** The test vectors of FIPS 180: the digests of ["abc"] and of the
    empty message. *)
Example sha1_ref_abc :
  map byte_to_Z (SHA1.sha1 [x61; x62; x63])
  = [0xa9; 0x99; 0x3e; 0x36; 0x47; 0x06; 0x81; 0x6a; 0xba; 0x3e;
     0x25; 0x71; 0x78; 0x50; 0xc2; 0x6c; 0x9c; 0xd0; 0xd8; 0x9d].
Proof. vm_compute. reflexivity. Qed.

Example sha1_ref_empty :
  map byte_to_Z (SHA1.sha1 [])
  = [0xda; 0x39; 0xa3; 0xee; 0x5e; 0x6b; 0x4b; 0x0d; 0x32; 0x55;
     0xbf; 0xef; 0x95; 0x60; 0x18; 0x90; 0xaf; 0xd8; 0x07; 0x09].
Proof. vm_compute. reflexivity. Qed.

(** ** C strings, hex and salt characters *)

Lemma strlen_from_spec (l r : list byte) (k : Z) :
  no_nul l -> strlen_from (l ++ NUL :: r) k = Ok (k + Z.of_nat (length l)).
Proof.
  intros H. revert k. induction H as [|c l Hc _ IH]; intros k.
  - cbn. f_equal. lia.
  - cbn [app strlen_from length].
    replace (byte_to_Z c =? 0) with false by (symmetry; apply Z.eqb_neq, Hc).
    rewrite IH. f_equal. lia.
Qed.

Lemma strlen_spec (l r : list byte) :
  no_nul l -> strlen (l ++ NUL :: r) = Ok (Z.of_nat (length l)).
Proof. intros H. unfold strlen. rewrite strlen_from_spec by exact H. f_equal. Qed.













(** ** The token and its check *)

Tactic Notation "explode" ident(l) hyp(H) integer(n) :=
  do n (destruct l as [|? l]; [discriminate H|]);
  destruct l; [|discriminate H].






Section SaltedDigestFacts.

Variable sha1 : list byte -> list byte.
Hypothesis sha1_length : forall m, length (sha1 m) = 20%nat.







End SaltedDigestFacts.

(** ** Results on the salted digest *)

(** What [tr_ssha1_matches] does with a token of fewer than 41 characters:
    its guard sends away fewer than 39; with 39 or 40 the salt length
    [sourcelen - 41] wraps around and the copy of the salt reads outside
    the token. *)
Lemma tr_ssha1_matches_short (sha1 : list byte -> list byte)
    (t plain_text : list byte) :
  no_nul t ->
  ((length t < 39)%nat ->
   tr_ssha1_matches sha1 (t ++ [NUL]) plain_text = Ok false)
  /\ ((39 <= length t < 41)%nat ->
      tr_ssha1_matches sha1 (t ++ [NUL]) plain_text = Fault).
Proof.
  intros Ht. unfold tr_ssha1_matches. rewrite strlen_spec by exact Ht.
  cbn [bind]. change (2 * SHA_DIGEST_LENGTH - 1) with 39.
  change (2 * SHA_DIGEST_LENGTH + 1) with 41. split; intros Hl.
  - replace (Z.of_nat (length t) <? 39) with true
      by (symmetry; apply Z.ltb_lt; lia).
    reflexivity.
  - replace (Z.of_nat (length t) <? 39) with false
      by (symmetry; apply Z.ltb_ge; lia).
    unfold read_bytes.
    replace (41 + _ <=? _) with false; [rewrite andb_false_r; reflexivity|].
    symmetry. apply Z.leb_gt. rewrite length_app. cbn [length].
    unfold size_wrap, SIZE_MOD, SIZE_BITS, SHA_DIGEST_LENGTH.
    change (2 ^ 64) with 18446744073709551616. zlia.
Qed.

(** C2, at the inputs where the code departs from it: a token of 39 or of
    40 characters passes the guard [sourcelen < 2 * SHA_DIGEST_LENGTH - 1]
    and the copy of its salt reads outside the token; only tokens of fewer
    than 39 characters are answered with [false]. *)
Theorem ssha1_matches_short_token_faults (sha1 : list byte -> list byte)
    (plain_text : list byte) :
  tr_ssha1_matches sha1 (replicate 39 x61 ++ [NUL]) plain_text = Fault
  /\ tr_ssha1_matches sha1 (replicate 40 x61 ++ [NUL]) plain_text = Fault
  /\ tr_ssha1_matches sha1 (replicate 38 x61 ++ [NUL]) plain_text = Ok false.
Proof. repeat split; vm_compute; reflexivity. Qed.





(** * Further properties of the code *)

(** ** The base-32 decoder: case and padding *)

Lemma table_entry_eqb_eq (a b : bool * outcome Z) :
  table_entry_eqb a b = true -> a = b.
Proof.
  destruct a as [a1 a2], b as [b1 b2]. unfold table_entry_eqb. cbn [fst snd].
  intros H. apply andb_prop in H. destruct H as [H1 H2].
  apply Bool.eqb_prop in H1. subst b1.
  destruct a2, b2; try discriminate; try reflexivity.
  apply Z.eqb_eq in H2. subst. reflexivity.
Qed.

Lemma table_entry_to_upper (c : byte) :
  table_entry (to_upper c) = table_entry c.
Proof.
  apply table_entry_eqb_eq. revert c. apply forall_byte.
  vm_compute. reflexivity.
Qed.

Lemma to_upper_pad (c : byte) :
  (byte_to_Z (to_upper c) =? CH_EQ) = (byte_to_Z c =? CH_EQ).
Proof.
  apply Bool.eqb_prop. revert c. apply forall_byte. vm_compute. reflexivity.
Qed.

Lemma load_map {A B} (f : A -> B) (buf : list A) (i : Z) :
  load (map f buf) i
  = match load buf i with
    | Ok x => Ok (f x)
    | Fault => Fault
    | AssertFail => AssertFail
    | OutOfFuel => OutOfFuel
    end.
Proof.
  unfold load, in_bounds. rewrite length_map.
  destruct ((0 <=? i) && (i <? Z.of_nat (length buf))); [|reflexivity].
  change (map f buf) with (f <$> buf). rewrite list_lookup_fmap.
  destruct (buf !! Z.to_nat i); reflexivity.
Qed.

Lemma strip_padding_to_upper (n : nat) :
  forall (input : list byte) (input_length : Z),
  strip_padding n (map to_upper input) input_length
  = strip_padding n input input_length.
Proof.
  induction n as [|n IH]; intros input input_length; [reflexivity|].
  cbn [strip_padding]. destruct (0 <? input_length); [|reflexivity].
  rewrite load_map. destruct (load input (input_length - 1)); try reflexivity.
  cbn [bind]. rewrite to_upper_pad, IH. reflexivity.
Qed.

Lemma decode_loop_to_upper (n : nat) :
  forall (input : list byte) (i index offset len : Z) (out : list byte),
  decode_loop n (map to_upper input) i index offset len out
  = decode_loop n input i index offset len out.
Proof.
  induction n as [|n IH]; intros input i index offset len out; [reflexivity|].
  cbn [decode_loop]. rewrite load_map.
  destruct (load input i) as [c| | |]; try reflexivity. cbn [bind].
  pose proof (table_entry_to_upper c) as E. unfold table_entry in E.
  inversion E as [[E1 E2]]. rewrite E1, E2.
  destruct (base32_lookup_size <=? size_wrap (byte_to_Z c - CH_0));
    [apply IH|].
  destruct (load base32_lookup (size_wrap (byte_to_Z c - CH_0)));
    try reflexivity.
  cbn [bind]. destruct (_ =? 255); [apply IH|].
  destruct (index <=? 3).
  - destruct ((index + 5) mod 8 =? 0).
    + destruct (store_or out offset _); try reflexivity. cbn [bind].
      destruct (len <=? offset + 1); [reflexivity|apply IH].
    + destruct (store_or out offset _); try reflexivity. cbn [bind].
      apply IH.
  - destruct (store_or out offset _); try reflexivity. cbn [bind].
    destruct (len <=? offset + 1); [reflexivity|].
    destruct (store_or _ (offset + 1) _); try reflexivity. cbn [bind].
    apply IH.
Qed.

(** X1: the decoder does not tell the case of letters apart: an input and
    the same input with its letters in upper case give the same result,
    reported length included, whatever the arguments. *)
Theorem base32_decode_ignores_case (input : list byte) (input_length : Z)
    (output : option (list byte)) (output_length : option Z) :
  tr_base32_decode (map to_upper input) input_length output output_length
  = tr_base32_decode input input_length output output_length.
Proof.
  unfold tr_base32_decode. rewrite strip_padding_to_upper.
  destruct (strip_padding (Z.to_nat input_length) input input_length);
    try reflexivity.
  cbn [bind]. destruct output as [out|]; [|reflexivity].
  destruct (memset out 0 NUL _); try reflexivity. cbn [bind].
  rewrite decode_loop_to_upper. reflexivity.
Qed.

Lemma strip_trailing_pads (s : list byte) (k : nat) :
  strip_trailing (s ++ replicate k (Z_to_byte CH_EQ)) = strip_trailing s.
Proof.
  induction k as [|k IH]; [rewrite app_nil_r; reflexivity|].
  rewrite replicate_S_end, app_assoc, strip_trailing_snoc.
  change (is_pad (Z_to_byte CH_EQ)) with true. exact IH.
Qed.

(** X2: trailing padding is without effect: an input followed by any
    number of ['='] characters decodes to the same result as the input
    alone, reported length included. *)
Theorem base32_decode_ignores_padding (s : list byte) (k : nat)
    (output : option (list byte)) (output_length : option Z) :
  tr_base32_decode (s ++ replicate k (Z_to_byte CH_EQ))
    (Z.of_nat (length s + k)) output output_length
  = tr_base32_decode s (Z.of_nat (length s)) output output_length.
Proof.
  unfold tr_base32_decode. rewrite !Nat2Z.id.
  rewrite !strip_padding_spec
    by (rewrite ?length_app, ?length_replicate; lia).
  rewrite firstn_all.
  replace (take (length s + k) (s ++ replicate k (Z_to_byte CH_EQ)))
    with (s ++ replicate k (Z_to_byte CH_EQ))
    by (symmetry; apply firstn_all2;
        rewrite length_app, length_replicate; lia).
  rewrite strip_trailing_pads. cbn [bind].
  destruct output as [out|]; [|reflexivity].
  destruct (memset out 0 NUL _); try reflexivity. cbn [bind].
  rewrite Nat2Z.id.
  pose proof (strip_trailing_length s) as Hl.
  rewrite !decode_loop_digits
    by (rewrite ?length_app; change (Z.to_nat 0) with 0%nat; lia).
  change (Z.to_nat 0) with 0%nat. rewrite !drop_0.
  rewrite take_app_le by lia. reflexivity.
Qed.

(** ** The value the decoder stores *)

Lemma or_adds_low_all (index : Z) (cur d : byte) :
  0 <= index <= 3 -> or_adds_low index cur d = true.
Proof.
  intros H. assert (H8 : 0 <= index < 8) by lia.
  case_index H8; try lia; revert cur d; apply forall_byte2; vm_compute;
    reflexivity.
Qed.

Lemma or_adds_high_all (index : Z) (cur d : byte) :
  4 <= index < 8 -> or_adds_high index cur d = true.
Proof.
  intros H. assert (H8 : 0 <= index < 8) by lia.
  case_index H8; try lia; revert cur d; apply forall_byte2; vm_compute;
    reflexivity.
Qed.

Lemma digit_as_byte (d : Z) : 0 <= d < 32 -> byte_to_Z (Z_to_byte d) = d.
Proof. intros H. rewrite byte_to_Z_to_byte. apply Z.mod_small. lia. Qed.

Lemma or_step_low (index : Z) (cur : byte) (d : Z) :
  0 <= index <= 3 -> byte_to_Z cur mod 2 ^ (8 - index) = 0 -> 0 <= d < 32 ->
  byte_to_Z
    (or_byte cur
       (if (index + 5) mod 8 =? 0 then d
        else Z.shiftl d (8 - (index + 5) mod 8)))
  = byte_to_Z cur + d * 2 ^ (3 - index).
Proof.
  intros Hi Hc Hd. pose proof (or_adds_low_all index cur (Z_to_byte d) Hi) as H.
  unfold or_adds_low in H. rewrite digit_as_byte in H by exact Hd.
  apply Z.eqb_eq in Hc. rewrite Hc in H.
  replace (d <? 32) with true in H by (symmetry; apply Z.ltb_lt; lia).
  cbn [andb implb] in H. apply Z.eqb_eq in H. exact H.
Qed.

Lemma or_step_high (index : Z) (cur : byte) (d : Z) :
  4 <= index < 8 -> byte_to_Z cur mod 2 ^ (8 - index) = 0 -> 0 <= d < 32 ->
  byte_to_Z (or_byte cur (Z.shiftr d ((index + 5) mod 8)))
  = byte_to_Z cur + d / 2 ^ (index - 3)
  /\ byte_to_Z (or_byte x00 (Z.shiftl d (8 - (index + 5) mod 8)))
     = (d mod 2 ^ (index - 3)) * 2 ^ (11 - index).
Proof.
  intros Hi Hc Hd.
  pose proof (or_adds_high_all index cur (Z_to_byte d) Hi) as H.
  unfold or_adds_high in H. rewrite digit_as_byte in H by exact Hd.
  apply Z.eqb_eq in Hc. rewrite Hc in H.
  replace (d <? 32) with true in H by (symmetry; apply Z.ltb_lt; lia).
  cbn [andb implb] in H. apply andb_prop in H. destruct H as [H1 H2].
  apply Z.eqb_eq in H1, H2. auto.
Qed.

Lemma be_value_snoc (l : list byte) (b : byte) :
  be_value (l ++ [b]) = 256 * be_value l + byte_to_Z b.
Proof. unfold be_value. rewrite fold_left_app. reflexivity. Qed.

Lemma be_value_nonneg (l : list byte) : 0 <= be_value l.
Proof.
  induction l as [|b l IH] using rev_ind; [reflexivity|].
  rewrite be_value_snoc. pose proof (byte_to_Z_range b). lia.
Qed.

Lemma be_value_app_zeros (l : list byte) (m : nat) :
  be_value (l ++ replicate m x00) = be_value l * 2 ^ (8 * Z.of_nat m).
Proof.
  induction m as [|m IH]; [rewrite app_nil_r; cbn; lia|].
  rewrite replicate_S_end, app_assoc, be_value_snoc, IH.
  change (byte_to_Z x00) with 0.
  replace (8 * Z.of_nat (S m)) with (8 * Z.of_nat m + 8) by lia.
  rewrite Z.pow_add_r by lia. change (2 ^ 8) with 256. lia.
Qed.

Lemma be32_from_bounds (ds : list Z) :
  Forall (fun d => 0 <= d < 32) ds ->
  forall acc, 0 <= acc ->
  acc * 2 ^ (5 * Z.of_nat (length ds)) <= be32_from acc ds
  < (acc + 1) * 2 ^ (5 * Z.of_nat (length ds)).
Proof.
  induction 1 as [|d ds Hd _ IH]; intros acc Hacc.
  - cbn. lia.
  - change (be32_from acc (d :: ds)) with (be32_from (32 * acc + d) ds).
    specialize (IH (32 * acc + d) ltac:(lia)).
    replace (5 * Z.of_nat (length (d :: ds)))
      with (5 * Z.of_nat (length ds) + 5) by (cbn [length]; lia).
    rewrite Z.pow_add_r by lia. change (2 ^ 5) with 32.
    assert (0 < 2 ^ (5 * Z.of_nat (length ds)))
      by (apply Z.pow_pos_nonneg; lia).
    nia.
Qed.

Lemma be32_from_div (ds : list Z) (acc : Z) :
  Forall (fun d => 0 <= d < 32) ds -> 0 <= acc ->
  be32_from acc ds / 2 ^ (5 * Z.of_nat (length ds)) = acc.
Proof.
  intros Hds Hacc. pose proof (be32_from_bounds ds Hds acc Hacc) as H.
  assert (0 < 2 ^ (5 * Z.of_nat (length ds))) by (apply Z.pow_pos_nonneg; lia).
  symmetry. apply (Z.div_unique_pos _ _ _
    (be32_from acc ds - acc * 2 ^ (5 * Z.of_nat (length ds)))); lia.
Qed.

(** Two quotients of products by powers of two that differ in how their
    exponents are written. *)
Ltac same_quot :=
  f_equal; first [f_equal; lia | f_equal; f_equal; lia].

Lemma shift_quot (y e s : Z) :
  0 <= e -> 0 <= s -> y * 2 ^ e / 2 ^ (e + s) = y / 2 ^ s.
Proof.
  intros He Hs. rewrite Z.pow_add_r by lia.
  rewrite (Z.mul_comm (2 ^ e)).
  apply Z.div_mul_cancel_r; apply Z.pow_nonzero; lia.
Qed.

Lemma shift_exact (y e s : Z) :
  0 <= e -> 0 <= s -> y * 2 ^ (e + s) / 2 ^ e = y * 2 ^ s.
Proof.
  intros He Hs. rewrite Z.pow_add_r by lia.
  rewrite (Z.mul_comm (2 ^ e)), Z.mul_assoc.
  apply Z.div_mul. apply Z.pow_nonzero; lia.
Qed.

(** The low bits of the byte the decoder is filling are clear. *)
Lemma current_byte_low_clear (pre : list byte) (cur : byte) (index acc : Z) :
  0 <= index < 8 ->
  be_value (pre ++ [cur]) = acc * 2 ^ (8 - index) ->
  byte_to_Z cur mod 2 ^ (8 - index) = 0.
Proof.
  intros Hi H. rewrite be_value_snoc in H.
  replace (byte_to_Z cur)
    with ((acc - 2 ^ index * be_value pre) * 2 ^ (8 - index)).
  - apply Z.mod_mul. apply Z.pow_nonzero; lia.
  - rewrite Z.mul_sub_distr_r, <- Z.mul_assoc, (Z.mul_comm (be_value pre)),
      Z.mul_assoc, <- Z.pow_add_r by lia.
    replace (index + (8 - index)) with 8 by lia. change (2 ^ 8) with 256.
    lia.
Qed.

(** What [dec_digits] leaves in the buffer, as a number.  [pre] holds the
    bytes completed so far, [cur] is being filled and holds [index] bits,
    [m] zeroed bytes follow; [acc] is the number the digits seen so far
    hold. *)
Lemma dec_digits_value (ds : list Z) :
  Forall (fun d => 0 <= d < 32) ds ->
  forall (index : Z) (pre : list byte) (cur : byte) (m : nat)
         (tail : list byte) (acc : Z),
  0 <= index < 8 -> 0 <= acc ->
  be_value (pre ++ [cur]) = acc * 2 ^ (8 - index) ->
  exists res : list byte,
    dec_digits ds index (Z.of_nat (length pre))
      (Z.of_nat (length pre) + 1 + Z.of_nat m)
      (pre ++ cur :: replicate m x00 ++ tail) = Ok (res ++ tail)
    /\ length res = (length pre + 1 + m)%nat
    /\ be_value res
       = be32_from acc ds * 2 ^ (8 * Z.of_nat (length pre + 1 + m))
         / 2 ^ (8 * Z.of_nat (length pre) + index
                + 5 * Z.of_nat (length ds)).
Proof.
  induction 1 as [|d ds Hd Hds IH]; intros index pre cur m tail acc Hi Hacc Hv.
  - exists (pre ++ cur :: replicate m x00). split; [|split].
    + cbn [dec_digits]. rewrite <- app_assoc. reflexivity.
    + rewrite length_app. cbn [length]. rewrite length_replicate. lia.
    + change (pre ++ cur :: replicate m x00)
        with (pre ++ [cur] ++ replicate m x00).
      rewrite app_assoc, be_value_app_zeros, Hv.
      cbn [length be32_from fold_left]. rewrite Z.mul_0_r, Z.add_0_r.
      replace (8 * Z.of_nat (length pre + 1 + m))
        with ((8 * Z.of_nat (length pre) + index)
              + (8 - index + 8 * Z.of_nat m)) by lia.
      rewrite shift_exact by lia.
      rewrite Z.pow_add_r by lia. lia.
  - pose proof (current_byte_low_clear pre cur index acc Hi Hv) as Hlow.
    rewrite be_value_snoc in Hv.
    change (be32_from acc (d :: ds)) with (be32_from (32 * acc + d) ds).
    replace (5 * Z.of_nat (length (d :: ds)))
      with (5 + 5 * Z.of_nat (length ds)) by (cbn [length]; lia).
    cbn [dec_digits].
    destruct (Z_le_gt_dec index 3) as [Hlo|Hhi].
    + replace (index <=? 3) with true by (symmetry; apply Z.leb_le; lia).
      pose proof (or_step_low index cur d ltac:(lia) Hlow Hd) as Hor.
      destruct (Z.eq_dec index 3) as [->|Hne].
      * (* the digit completes the byte *)
        change ((3 + 5) mod 8) with 0 in *. change (0 =? 0) with true in *.
        cbv iota in *. change (2 ^ (3 - 3)) with 1 in Hor.
        change (2 ^ (8 - 3)) with 32 in Hv.
        rewrite store_or_mid by reflexivity. cbn [bind].
        set (cur' := or_byte cur d) in *.
        assert (Hpre' : be_value (pre ++ [cur']) = 32 * acc + d)
          by (rewrite be_value_snoc; lia).
        destruct m as [|m].
        -- replace (_ <=? _) with true by (symmetry; apply Z.leb_le; lia).
           exists (pre ++ [cur']). split; [|split].
           ++ cbn [replicate app]. rewrite <- app_assoc. reflexivity.
           ++ rewrite length_app. cbn [length]. lia.
           ++ rewrite Hpre'.
              replace (8 * Z.of_nat (length pre) + 3
                       + (5 + 5 * Z.of_nat (length ds)))
                with (8 * Z.of_nat (length pre + 1 + 0)
                      + 5 * Z.of_nat (length ds)) by lia.
              rewrite shift_quot by lia.
              rewrite be32_from_div by (assumption || lia). reflexivity.
        -- replace (_ <=? _) with false by (symmetry; apply Z.leb_gt; lia).
           cbn [replicate app].
           destruct (IH 0 (pre ++ [cur']) x00 m tail (32 * acc + d)
                       ltac:(lia) ltac:(lia)) as (res & Hr & Hl & Hval).
           { rewrite be_value_snoc, Hpre'. change (byte_to_Z x00) with 0.
             change (2 ^ (8 - 0)) with 256. lia. }
           exists res. rewrite length_app in Hr, Hl, Hval.
           cbn [length] in Hr, Hl, Hval. split; [|split].
           ++ rewrite <- Hr, <- app_assoc. cbn [app]. f_equal; lia.
           ++ lia.
           ++ rewrite Hval. same_quot.
      * (* the digit stays inside the byte *)
        assert (Hm : (index + 5) mod 8 = index + 5) by zlia.
        rewrite Hm in *.
        replace (index + 5 =? 0) with false in *
          by (symmetry; apply Z.eqb_neq; lia).
        rewrite store_or_mid by reflexivity. cbn [bind].
        set (cur' := or_byte cur (Z.shiftl d (8 - (index + 5)))) in *.
        destruct (IH (index + 5) pre cur' m tail (32 * acc + d)
                    ltac:(lia) ltac:(lia)) as (res & Hr & Hl & Hval).
        { rewrite be_value_snoc, Hor.
          replace (8 - index) with (5 + (3 - index)) in Hv by lia.
          rewrite Z.pow_add_r in Hv by lia. change (2 ^ 5) with 32 in Hv.
          replace (8 - (index + 5)) with (3 - index) by lia. lia. }
        exists res. split; [exact Hr|]. split; [exact Hl|].
        rewrite Hval. same_quot.
    + (* the digit spans two bytes *)
      replace (index <=? 3) with false by (symmetry; apply Z.leb_gt; lia).
      destruct (or_step_high index cur d ltac:(lia) Hlow Hd) as [Hor1 Hor2].
      assert (Hm : (index + 5) mod 8 = index - 3) by zlia.
      rewrite Hm in *.
      rewrite store_or_mid by reflexivity. cbn [bind].
      set (cur' := or_byte cur (Z.shiftr d (index - 3))) in *.
      assert (Hpre' : be_value (pre ++ [cur'])
                      = (32 * acc + d) / 2 ^ (index - 3)).
      { rewrite be_value_snoc, Hor1, Z.add_assoc, Hv.
        replace (32 * acc) with (acc * 2 ^ (8 - index) * 2 ^ (index - 3)).
        - rewrite Z.div_add_l by (apply Z.pow_nonzero; lia). reflexivity.
        - rewrite <- Z.mul_assoc, <- Z.pow_add_r by lia.
          replace (8 - index + (index - 3)) with 5 by lia.
          change (2 ^ 5) with 32. lia. }
      destruct m as [|m].
      * replace (_ <=? _) with true by (symmetry; apply Z.leb_le; lia).
        exists (pre ++ [cur']). split; [|split].
        -- cbn [replicate app]. rewrite <- app_assoc. reflexivity.
        -- rewrite length_app. cbn [length]. lia.
        -- rewrite Hpre'.
           replace (8 * Z.of_nat (length pre) + index
                    + (5 + 5 * Z.of_nat (length ds)))
             with (8 * Z.of_nat (length pre + 1 + 0)
                   + (5 * Z.of_nat (length ds) + (index - 3))) by lia.
           rewrite shift_quot by lia.
           rewrite Z.pow_add_r, <- Z.div_div by
             (try apply Z.pow_pos_nonneg; try apply Z.pow_nonzero; lia).
           rewrite be32_from_div by (assumption || lia). reflexivity.
      * replace (_ <=? _) with false by (symmetry; apply Z.leb_gt; lia).
        cbn [replicate app].
        replace (pre ++ cur' :: x00 :: replicate m x00 ++ tail)
          with ((pre ++ [cur']) ++ x00 :: replicate m x00 ++ tail)
          by (rewrite <- app_assoc; reflexivity).
        rewrite store_or_mid by (rewrite length_app; cbn [length]; lia).
        cbn [bind].
        set (nxt := or_byte x00 (Z.shiftl d (8 - (index - 3)))) in *.
        destruct (IH (index - 3) (pre ++ [cur']) nxt m tail (32 * acc + d)
                    ltac:(lia) ltac:(lia)) as (res & Hr & Hl & Hval).
        { rewrite be_value_snoc, Hpre', Hor2.
          replace (8 - (index - 3)) with (11 - index) by lia.
          replace 256 with (2 ^ (index - 3) * 2 ^ (11 - index)).
          - pose proof (Z.div_mod (32 * acc + d) (2 ^ (index - 3))
                          ltac:(apply Z.pow_nonzero; lia)) as Hdm.
            assert (Hmod : (32 * acc + d) mod 2 ^ (index - 3)
                           = d mod 2 ^ (index - 3)).
            { replace (32 * acc) with (acc * 2 ^ (8 - index) * 2 ^ (index - 3)).
              - rewrite Z.add_comm. apply Z.mod_add.
                apply Z.pow_nonzero; lia.
              - rewrite <- Z.mul_assoc, <- Z.pow_add_r by lia.
                replace (8 - index + (index - 3)) with 5 by lia.
                change (2 ^ 5) with 32. lia. }
            rewrite Hmod in Hdm.
            generalize dependent ((32 * acc + d) / 2 ^ (index - 3)).
            generalize (d mod 2 ^ (index - 3)).
            generalize (2 ^ (index - 3)), (2 ^ (11 - index)).
            intros p q r k. intros. nia.
          - rewrite <- Z.pow_add_r by lia.
            replace (index - 3 + (11 - index)) with 8 by lia. reflexivity. }
        exists res. rewrite length_app in Hr, Hl, Hval.
        cbn [length] in Hr, Hl, Hval. split; [|split].
        -- rewrite <- Hr. f_equal; lia.
        -- lia.
        -- rewrite Hval. same_quot.
Qed.

Lemma digit_of_range (c : byte) (d : Z) :
  digit_of c = Some d -> 0 <= d < 32.
Proof.
  intros H.
  assert (E : match digit_of c with
              | Some d => (0 <=? d) && (d <? 32)
              | None => true
              end = true).
  { revert c H. intros c _. revert c. apply forall_byte. vm_compute.
    reflexivity. }
  rewrite H in E. apply andb_prop in E. destruct E as [E1 E2].
  apply Z.leb_le in E1. apply Z.ltb_lt in E2. lia.
Qed.

Lemma omap_digit_of_range (s : list byte) :
  Forall (fun d => 0 <= d < 32) (omap digit_of s).
Proof.
  induction s as [|c s IH]; [constructor|].
  rewrite omap_cons_eq. destruct (digit_of c) as [d|] eqn:E; [|exact IH].
  constructor; [eapply digit_of_range, E|exact IH].
Qed.

Lemma big_endian_value (l : list byte) :
  big_endian (length l) (be_value l) = l.
Proof.
  induction l as [|b l IH] using rev_ind; [reflexivity|].
  rewrite length_app, Nat.add_1_r, be_value_snoc. cbn [length big_endian].
  pose proof (byte_to_Z_range b) as Hb.
  replace ((256 * be_value l + byte_to_Z b) / 256) with (be_value l) by zlia.
  rewrite IH. f_equal. f_equal.
  rewrite <- (Z_to_byte_to_Z b) at 2. unfold Z_to_byte.
  replace ((256 * be_value l + byte_to_Z b) mod 256)
    with (byte_to_Z b mod 256) by zlia.
  reflexivity.
Qed.

(** X3: what [tr_base32_decode] stores, for any input at all.  Let [s] be
    the input without its trailing padding, [len = floor (5 * |s| / 8)] the
    length reported, and [ds] the digits of the characters of [s] the
    lookup table knows, skipping the others.  When [len] is at least 1 and
    the output buffer holds [len] bytes, the call returns normally and the
    first [len] bytes of the output are, most significant byte first, the
    number [ds] holds in base 32 shifted so that the first bit of the
    first digit is the first bit of the output: multiplied by
    [2 ^ (8 * len)] and divided, rounding down, by [2 ^ (5 * |ds|)].  So
    bits of digits that do not fit are dropped, bytes the digits do not
    reach are zero, and the rest of the buffer is untouched. *)
Theorem base32_decode_value (input out : list byte) (n : nat)
    (ol : option Z) :
  let s := strip_trailing (take n input) in
  let ds := omap digit_of s in
  let len := Z.to_nat (Z.of_nat (length s) * 5 / 8) in
  (n <= length input)%nat ->
  Z.of_nat n * 5 < SIZE_MOD ->
  (0 < len <= length out)%nat ->
  tr_base32_decode input (Z.of_nat n) (Some out) ol
  = Ok (Some (big_endian len
                (be32_value ds * 2 ^ (8 * Z.of_nat len)
                 / 2 ^ (5 * Z.of_nat (length ds)))
              ++ drop len out),
        option_map (fun _ => Z.of_nat len) ol).
Proof.
  intros s ds len Hn Hsize Hlen.
  assert (Hl : decoded_length (take n input) = Z.of_nat len).
  { rewrite decoded_length_small by (rewrite length_take; lia).
    fold s. unfold len. rewrite Z2Nat.id; [reflexivity|].
    apply Z.div_pos; lia. }
  rewrite tr_base32_decode_digits by (try assumption; lia).
  rewrite Hl, Nat2Z.id. fold s ds.
  destruct len as [|m] eqn:Em; [lia|].
  destruct (dec_digits_value ds (omap_digit_of_range s) 0 [] x00 m
              (drop (S m) out) 0 ltac:(lia) ltac:(lia) eq_refl)
    as (res & Hr & Hres & Hval).
  cbn [length app] in Hr, Hres, Hval. cbn [replicate app].
  change (Z.of_nat 0) with 0 in Hr.
  replace (Z.of_nat (S m)) with (0 + 1 + Z.of_nat m) at 1 by lia.
  rewrite Hr. cbn [bind].
  replace (be32_value ds * 2 ^ (8 * Z.of_nat (S m))
           / 2 ^ (5 * Z.of_nat (length ds))) with (be_value res)
    by (rewrite Hval; unfold be32_value; same_quot).
  assert (Hres' : S m = length res) by lia.
  rewrite Hres', big_endian_value. destruct ol; reflexivity.
Qed.

Lemma base32_decode_value_witness :
  tr_base32_decode [x6d; x7a; x2d; x58; x57; x37; x3d; x3d] (Z.of_nat 8)
    (Some [xff; xff; xff; xff; xff]) (Some 0)
  = Ok (Some (big_endian 3
                (be32_value [12; 25; 23; 22; 31] * 2 ^ (8 * Z.of_nat 3)
                 / 2 ^ (5 * Z.of_nat 5))
              ++ [xff; xff]),
        Some (Z.of_nat 3)).
Proof.
  apply (base32_decode_value [x6d; x7a; x2d; x58; x57; x37; x3d; x3d]
           [xff; xff; xff; xff; xff] 8 (Some 0)).
  - vm_compute. lia.
  - vm_compute. reflexivity.
  - vm_compute. lia.
Defined.

(** ** Encoding block by block *)

(** Five bytes are eight digits: after them the encoder is at a byte
    boundary again, and none of the eight looked past the fifth byte. *)
Lemma digits_block (c1 c2 c3 c4 c5 : byte) (rest : list byte) :
  digits 0 (c1 :: c2 :: c3 :: c4 :: c5 :: rest)
  = digits 0 [c1; c2; c3; c4; c5] ++ digits 0 rest.
Proof.
  rewrite !(digits_low 0), !(digits_high 5), !(digits_low 2),
    !(digits_high 7), !(digits_high 4), !(digits_low 1), !(digits_high 6),
    !digits_three by lia.
  cbn [next_of digits app]. reflexivity.
Qed.

Lemma digits_blocks (k : nat) :
  forall a b : list byte,
  length a = (5 * k)%nat ->
  digits 0 (a ++ b) = digits 0 a ++ digits 0 b.
Proof.
  induction k as [|k IH]; intros a b Ha.
  - destruct a; [reflexivity|discriminate].
  - destruct a as [|c1 [|c2 [|c3 [|c4 [|c5 a]]]]]; cbn [length] in Ha;
      try lia.
    cbn [app].
    rewrite (digits_block c1 c2 c3 c4 c5 (a ++ b)),
      (digits_block c1 c2 c3 c4 c5 a), IH by lia.
    rewrite app_assoc. reflexivity.
Qed.

Lemma tr_base32_encode_exact (input : list byte) :
  tr_base32_encode input (Z.of_nat (length input))
    (Some (replicate
             (Z.to_nat (ceil_div (8 * Z.of_nat (length input)) 5)) x00))
    None
  = Ok (Some (map base32_char (digits 0 input)), None).
Proof.
  rewrite tr_base32_encode_digits
    by (rewrite length_replicate, digits_count; lia).
  rewrite drop_ge by (rewrite length_replicate, digits_count; lia).
  rewrite app_nil_r. reflexivity.
Qed.

(** X4: the encoder can be fed in blocks.  When the length of [a] is a
    multiple of five bytes, what [tr_base32_encode] stores for [a ++ b] is
    what it stores for [a] alone followed by what it stores for [b] alone;
    the bytes of the buffer after the symbols are left as they were. *)
Theorem base32_encode_in_blocks (a b out : list byte) (k : nat)
    (ol : option Z) :
  length a = (5 * k)%nat ->
  ceil_div (8 * Z.of_nat (length (a ++ b))) 5 <= Z.of_nat (length out) ->
  exists ea eb : list byte,
    tr_base32_encode a (Z.of_nat (length a))
      (Some (replicate (Z.to_nat (ceil_div (8 * Z.of_nat (length a)) 5)) x00))
      None
    = Ok (Some ea, None)
    /\ tr_base32_encode b (Z.of_nat (length b))
         (Some (replicate
                  (Z.to_nat (ceil_div (8 * Z.of_nat (length b)) 5)) x00))
         None
       = Ok (Some eb, None)
    /\ length ea = (8 * k)%nat
    /\ tr_base32_encode (a ++ b) (Z.of_nat (length (a ++ b))) (Some out) ol
       = Ok (Some (ea ++ eb ++ drop (length ea + length eb) out),
             option_map
               (fun _ => size_wrap (Z.of_nat (length (a ++ b)) * 8 + 4) / 5)
               ol).
Proof.
  intros Ha Hcap.
  exists (map base32_char (digits 0 a)), (map base32_char (digits 0 b)).
  split; [apply tr_base32_encode_exact|].
  split; [apply tr_base32_encode_exact|].
  split.
  - rewrite length_map, digits_count, Ha. unfold ceil_div. zlia.
  - rewrite tr_base32_encode_digits by (rewrite digits_count; lia).
    rewrite (digits_blocks k a b Ha), map_app, !length_map, length_app,
      <- app_assoc.
    reflexivity.
Qed.

Lemma base32_encode_in_blocks_witness :
  exists ea eb : list byte,
    tr_base32_encode [x66; x6f; x6f; x62; x61] (Z.of_nat 5)
      (Some (replicate (Z.to_nat (ceil_div (8 * Z.of_nat 5) 5)) x00)) None
    = Ok (Some ea, None)
    /\ tr_base32_encode [x72] (Z.of_nat 1)
         (Some (replicate (Z.to_nat (ceil_div (8 * Z.of_nat 1) 5)) x00)) None
       = Ok (Some eb, None)
    /\ length ea = (8 * 1)%nat
    /\ tr_base32_encode ([x66; x6f; x6f; x62; x61] ++ [x72])
         (Z.of_nat (length ([x66; x6f; x6f; x62; x61] ++ [x72])))
         (Some (replicate 12 xff)) (Some 0)
       = Ok (Some (ea ++ eb ++ drop (length ea + length eb) (replicate 12 xff)),
             option_map
               (fun _ =>
                  size_wrap
                    (Z.of_nat (length ([x66; x6f; x6f; x62; x61] ++ [x72]))
                     * 8 + 4) / 5)
               (Some 0)).
Proof.
  apply (base32_encode_in_blocks [x66; x6f; x6f; x62; x61] [x72]
           (replicate 12 xff) 1 (Some 0)).
  - reflexivity.
  - vm_compute. discriminate.
Defined.

(** ** The salted digest: tokens with a salt of any length *)












(** ** tr_sha1 and tr_md5 *)

Lemma md5_va_loop_sha1 (args : list (option (list byte) * Z)) :
  forall sha st,
  Digest.md5_va_loop sha args st = Digest.sha1_va_loop sha args st.
Proof.
  induction args as [|[[d|] len] args IH]; intros sha st; reflexivity.
Qed.

Lemma digest_next_result (st : Digest.evp_state) :
  Digest.live (snd (Digest.next_result st)) = Digest.live st
  /\ Digest.logged (snd (Digest.next_result st)) = Digest.logged st
  /\ (Forall (fun r => r = 1) (Digest.results st) ->
      fst (Digest.next_result st) = 1
      /\ Forall (fun r => r = 1)
           (Digest.results (snd (Digest.next_result st)))).
Proof.
  unfold Digest.next_result. destruct (Digest.results st) as [|r rs] eqn:E;
    cbn [fst snd Digest.live Digest.logged Digest.results].
  - rewrite E. auto.
  - split; [reflexivity|]. split; [reflexivity|].
    intros H. inversion H; subst. auto.
Qed.

Lemma digest_check_result (r : Z) (st : Digest.evp_state) :
  fst (Digest.check_result r st) = (r =? 1)
  /\ Digest.live (snd (Digest.check_result r st)) = Digest.live st
  /\ Digest.results (snd (Digest.check_result r st)) = Digest.results st
  /\ Digest.logged (snd (Digest.check_result r st))
     = Digest.logged st + (if r =? 1 then 0 else 1).
Proof.
  unfold Digest.check_result, Digest.check_openssl_result.
  destruct (r =? 1); cbn; repeat split; lia.
Qed.

(** What a call of the update function does to the state, whatever
    OpenSSL answers. *)
Lemma digest_update_state (h : Digest.evp_md_ctx) (data : option (list byte))
    (len : Z) (st st' : Digest.evp_state) (ok : bool)
    (sha' : option Digest.evp_md_ctx) :
  Digest.openssl_evp_digest_context_update (Some h) data len st
  = Ok (ok, sha', st') ->
  Digest.live st' = Digest.live st
  /\ Digest.logged st' = Digest.logged st + (if ok then 0 else 1)
  /\ exists h', sha' = Some h' /\ Digest.algo h' = Digest.algo h.
Proof.
  unfold Digest.openssl_evp_digest_context_update.
  destruct (len =? 0).
  { intros H. inversion H; subst. split; [reflexivity|].
    split; [lia|]. exists h. auto. }
  destruct data as [d|]; [|discriminate].
  destruct (read_bytes d 0 len) as [bytes| | |]; try discriminate.
  cbn [bind].
  pose proof (digest_next_result st) as (Hl & Hg & _).
  destruct (Digest.next_result st) as [r st1]. cbn [fst snd] in *.
  pose proof (digest_check_result r st1) as (Hc & Hl2 & _ & Hg2).
  destruct (Digest.check_result r st1) as [ok' st2]. cbn [fst snd] in *.
  intros H. inversion H; subst. split; [lia|].
  split; [destruct (r =? 1); lia|].
  destruct (r =? 1); eexists; split; reflexivity.
Qed.

Lemma digest_va_loop_state (args : list (option (list byte) * Z)) :
  forall h st at_end sha' st',
  Digest.sha1_va_loop (Some h) args st = Ok (at_end, sha', st') ->
  Digest.live st' = Digest.live st
  /\ Digest.logged st' = Digest.logged st + (if at_end then 0 else 1)
  /\ exists h', sha' = Some h' /\ Digest.algo h' = Digest.algo h.
Proof.
  induction args as [|[[d|] len] args IH]; intros h st at_end sha' st' H.
  - inversion H; subst. split; [reflexivity|]. split; [lia|]. eauto.
  - cbn [Digest.sha1_va_loop] in H.
    destruct (negb (0 <=? len)); [discriminate|].
    unfold Digest.tr_sha1_update in H.
    destruct (Digest.openssl_evp_digest_context_update (Some h) (Some d)
                len st) as [[[ok sha1] st1]| | |] eqn:E; try discriminate.
    cbn [bind] in H.
    apply digest_update_state in E. destruct E as (El & Eg & h1 & -> & Ea).
    destruct ok.
    + apply IH in H. destruct H as (Hl & Hg & h2 & -> & Ha).
      split; [lia|]. split; [lia|]. exists h2. split; congruence.
    + inversion H; subst. split; [lia|]. split; [lia|]. eauto.
  - inversion H; subst. split; [reflexivity|]. split; [lia|]. eauto.
Qed.

Lemma digest_final_state
    (md : Digest.digest_algo -> list byte -> list byte)
    (h : Digest.evp_md_ctx) (hash hash' : option (list byte))
    (expected : Z) (st st' : Digest.evp_state) (ret : bool) :
  Digest.openssl_evp_digest_context_final md (Some h) hash expected st
  = Ok (ret, hash', st') ->
  Digest.live st' = Digest.live st - 1
  /\ Digest.logged st' = Digest.logged st + (if ret then 0 else 1).
Proof.
  unfold Digest.openssl_evp_digest_context_final.
  destruct hash as [buf|].
  - pose proof (digest_next_result st) as (Hl & Hg & _).
    destruct (Digest.next_result st) as [r st1]. cbn [fst snd] in *.
    destruct (if r =? 1
              then write_bytes buf 0 (md (Digest.algo h) (Digest.absorbed h))
              else Ok buf) as [buf'| | |]; try discriminate.
    cbn [bind].
    pose proof (digest_check_result r st1) as (Hc & Hl2 & _ & Hg2).
    destruct (Digest.check_result r st1) as [ok st2]. cbn [fst snd] in *.
    destruct (negb _); [discriminate|]. cbn [bind].
    intros H. inversion H; subst. cbn. split; [lia|].
    destruct (r =? 1); lia.
  - cbn [bind]. intros H. inversion H; subst. cbn. split; lia.
Qed.

Lemma tr_sha1_shape (md : Digest.digest_algo -> list byte -> list byte) :
  Digest.tr_sha1 md = Digest.digest_shape md Digest.EVP_sha1 SHA_DIGEST_LENGTH.
Proof. reflexivity. Qed.

Lemma tr_md5_shape (md : Digest.digest_algo -> list byte -> list byte) :
  Digest.tr_md5 md
  = Digest.digest_shape md Digest.EVP_md5 Digest.MD5_DIGEST_LENGTH.
Proof. reflexivity. Qed.

Lemma digest_init_state (a : Digest.digest_algo) (st : Digest.evp_state) :
  match Digest.openssl_evp_digest_context_init a st with
  | (Some h, st') =>
    h = {| Digest.algo := a; Digest.absorbed := [] |}
    /\ Digest.live st' = Digest.live st + 1
    /\ Digest.logged st' = Digest.logged st
  | (None, st') =>
    Digest.live st' = Digest.live st
    /\ Digest.logged st' = Digest.logged st + 1
  end.
Proof.
  unfold Digest.openssl_evp_digest_context_init.
  pose proof (digest_next_result (Digest.EVP_MD_CTX_create st))
    as (Hl & Hg & _).
  destruct (Digest.next_result (Digest.EVP_MD_CTX_create st)) as [r st1].
  cbn [fst snd] in *.
  pose proof (digest_check_result r st1) as (Hc & Hl2 & _ & Hg2).
  destruct (Digest.check_result r st1) as [ok st2]. cbn [fst snd] in *.
  subst ok. cbn [Digest.EVP_MD_CTX_create Digest.live Digest.logged] in *.
  destruct (r =? 1); cbn; repeat split; lia.
Qed.

Lemma digest_shape_state (md : Digest.digest_algo -> list byte -> list byte)
    (a : Digest.digest_algo) (expected : Z)
    (hash data1 : option (list byte)) (len : Z)
    (args : list (option (list byte) * Z)) (st st' : Digest.evp_state)
    (b : bool) (hash' : option (list byte)) :
  Digest.digest_shape md a expected hash data1 len args st
  = Ok (b, hash', st') ->
  Digest.live st' = Digest.live st
  /\ Digest.logged st' = Digest.logged st + (if b then 0 else 1).
Proof.
  unfold Digest.digest_shape.
  pose proof (digest_init_state a st) as Hi.
  destruct (Digest.openssl_evp_digest_context_init a st) as [[h|] st0].
  2:{ intros H. inversion H; subst. exact Hi. }
  destruct Hi as (_ & Hl0 & Hg0).
  destruct (Digest.openssl_evp_digest_context_update (Some h) data1
              (size_wrap len) st0) as [[[ok ctx] st1]| | |] eqn:Eu;
    try discriminate.
  apply digest_update_state in Eu. destruct Eu as (Hl1 & Hg1 & h1 & -> & _).
  cbn [bind]. destruct ok.
  - destruct (Digest.sha1_va_loop (Some h1) args st1)
      as [[[at_end ctx] st2]| | |] eqn:Ev; try discriminate.
    apply digest_va_loop_state in Ev.
    destruct Ev as (Hl2 & Hg2 & h2 & -> & _).
    cbn [bind]. destruct at_end.
    + intros H. apply digest_final_state in H. lia.
    + destruct (Digest.openssl_evp_digest_context_final md (Some h2) None
                  expected st2) as [[[r hx] st3]| | |] eqn:Ef;
        try discriminate.
      pose proof Ef as Ef'. apply digest_final_state in Ef'.
      assert (r = true).
      { unfold Digest.openssl_evp_digest_context_final in Ef.
        cbn [bind] in Ef. inversion Ef. reflexivity. }
      subst r. cbn [bind]. intros H. inversion H; subst. lia.
  - cbn [bind].
    destruct (Digest.openssl_evp_digest_context_final md (Some h1) None
                expected st1) as [[[r hx] st3]| | |] eqn:Ef;
      try discriminate.
    pose proof Ef as Ef'. apply digest_final_state in Ef'.
    assert (r = true).
    { unfold Digest.openssl_evp_digest_context_final in Ef.
      cbn [bind] in Ef. inversion Ef. reflexivity. }
    subst r. cbn [bind]. intros H. inversion H; subst. lia.
Qed.

(** X7: whenever [tr_sha1] or [tr_md5] returns, on success and on each of
    its failure paths alike, the digest context it created has been
    destroyed again, so the number of live contexts is what it was; and it
    returns [false] exactly when one OpenSSL call failed, which is then
    logged once. *)
Theorem digest_context_is_released
    (md : Digest.digest_algo -> list byte -> list byte)
    (hash data1 : option (list byte)) (data1_length : Z)
    (args : list (option (list byte) * Z)) (st st' : Digest.evp_state)
    (b : bool) (hash' : option (list byte)) :
  (Digest.tr_sha1 md hash data1 data1_length args st = Ok (b, hash', st') ->
   Digest.live st' = Digest.live st
   /\ Digest.logged st' = Digest.logged st + (if b then 0 else 1))
  /\ (Digest.tr_md5 md hash data1 data1_length args st = Ok (b, hash', st') ->
      Digest.live st' = Digest.live st
      /\ Digest.logged st' = Digest.logged st + (if b then 0 else 1)).
Proof.
  rewrite tr_sha1_shape, tr_md5_shape.
  split; apply digest_shape_state.
Qed.

Lemma digest_step_succeeds (st : Digest.evp_state) :
  all_succeed st ->
  exists st',
    (let (r, st1) := Digest.next_result st in Digest.check_result r st1)
    = (true, st')
    /\ all_succeed st'
    /\ Digest.live st' = Digest.live st
    /\ Digest.logged st' = Digest.logged st.
Proof.
  intros H. unfold all_succeed in *.
  pose proof (digest_next_result st) as (Hl & Hg & Hr).
  destruct (Hr H) as [H1 H2].
  destruct (Digest.next_result st) as [r st1]. cbn [fst snd] in *. subst r.
  exists st1. cbn. auto.
Qed.

Lemma digest_init_succeeds (a : Digest.digest_algo) (st : Digest.evp_state) :
  all_succeed st ->
  exists st',
    Digest.openssl_evp_digest_context_init a st
    = (Some {| Digest.algo := a; Digest.absorbed := [] |}, st')
    /\ all_succeed st'
    /\ Digest.live st' = Digest.live st + 1
    /\ Digest.logged st' = Digest.logged st.
Proof.
  intros H. unfold Digest.openssl_evp_digest_context_init.
  destruct (digest_step_succeeds (Digest.EVP_MD_CTX_create st) H)
    as (st' & E & Hs & Hl & Hg).
  destruct (Digest.next_result (Digest.EVP_MD_CTX_create st)) as [r st1].
  rewrite E. exists st'. cbn in Hl, Hg. auto.
Qed.

Lemma digest_update_succeeds (h : Digest.evp_md_ctx) (d : list byte)
    (len : Z) (st : Digest.evp_state) :
  all_succeed st -> 0 <= len <= Z.of_nat (length d) ->
  exists st',
    Digest.openssl_evp_digest_context_update (Some h) (Some d) len st
    = Ok (true,
          Some {| Digest.algo := Digest.algo h;
                  Digest.absorbed := Digest.absorbed h
                                     ++ take (Z.to_nat len) d |}, st')
    /\ all_succeed st'
    /\ Digest.live st' = Digest.live st
    /\ Digest.logged st' = Digest.logged st.
Proof.
  intros H Hlen. unfold Digest.openssl_evp_digest_context_update.
  destruct (len =? 0) eqn:E0.
  { apply Z.eqb_eq in E0. subst len. exists st.
    change (Z.to_nat 0) with 0%nat. rewrite take_0, app_nil_r.
    destruct h. auto. }
  rewrite read_bytes_ok by lia. cbn [bind].
  change (Z.to_nat 0) with 0%nat. rewrite drop_0.
  destruct (digest_step_succeeds st H) as (st' & E & Hs & Hl & Hg).
  destruct (Digest.next_result st) as [r st1]. rewrite E.
  exists st'. auto.
Qed.

Lemma digest_va_loop_succeeds (args : list (option (list byte) * Z)) :
  forall h st,
  all_succeed st -> Digest.spans_ok args ->
  exists st',
    Digest.sha1_va_loop (Some h) args st
    = Ok (true,
          Some {| Digest.algo := Digest.algo h;
                  Digest.absorbed := Digest.absorbed h
                                     ++ Digest.spans_data args |}, st')
    /\ all_succeed st'
    /\ Digest.live st' = Digest.live st
    /\ Digest.logged st' = Digest.logged st.
Proof.
  induction args as [|[[d|] len] args IH]; intros h st Hs Hok;
    cbn [Digest.sha1_va_loop Digest.spans_data].
  - exists st. rewrite app_nil_r. destruct h. auto.
  - destruct Hok as [Hlen Hok].
    replace (0 <=? len) with true by (symmetry; apply Z.leb_le; lia).
    cbn [negb]. unfold Digest.tr_sha1_update.
    destruct (digest_update_succeeds h d len st Hs Hlen)
      as (st1 & E & Hs1 & Hl1 & Hg1).
    rewrite E. cbn [bind].
    destruct (IH {| Digest.algo := Digest.algo h;
                    Digest.absorbed := Digest.absorbed h
                                       ++ take (Z.to_nat len) d |}
                st1 Hs1 Hok) as (st2 & E2 & Hs2 & Hl2 & Hg2).
    rewrite E2. cbn [Digest.algo Digest.absorbed].
    rewrite <- app_assoc. exists st2. repeat split; auto; lia.
  - exists st. rewrite app_nil_r. destruct h. auto.
Qed.

Lemma digest_final_succeeds
    (md : Digest.digest_algo -> list byte -> list byte)
    (h : Digest.evp_md_ctx) (buf : list byte) (expected : Z)
    (st : Digest.evp_state) :
  all_succeed st ->
  Z.of_nat (length (md (Digest.algo h) (Digest.absorbed h))) = expected ->
  expected <= Z.of_nat (length buf) ->
  exists st',
    Digest.openssl_evp_digest_context_final md (Some h) (Some buf)
      expected st
    = Ok (true,
          Some (md (Digest.algo h) (Digest.absorbed h)
                ++ drop (Z.to_nat expected) buf), st')
    /\ Digest.live st' = Digest.live st - 1
    /\ Digest.logged st' = Digest.logged st.
Proof.
  intros Hs He Hb. unfold Digest.openssl_evp_digest_context_final.
  destruct (digest_step_succeeds st Hs) as (st' & E & Hs' & Hl & Hg).
  pose proof (digest_next_result st) as (_ & _ & Hr).
  destruct (Hr Hs) as [H1 _].
  destruct (Digest.next_result st) as [r st1]. cbn [fst] in H1. subst r.
  change (1 =? 1) with true. cbv iota.
  rewrite write_bytes_ok by lia. cbn [bind].
  rewrite E. rewrite He, Z.eqb_refl. cbn [negb orb bind].
  change (Z.to_nat 0) with 0%nat. rewrite take_0. cbn [app].
  replace (0 + length (md (Digest.algo h) (Digest.absorbed h)))%nat
    with (Z.to_nat expected) by lia.
  eexists. split; [reflexivity|]. cbn. split; lia.
Qed.

Lemma digest_shape_succeeds
    (md : Digest.digest_algo -> list byte -> list byte)
    (a : Digest.digest_algo) (expected : Z)
    (hash data1 : list byte) (len : Z)
    (args : list (option (list byte) * Z)) (st : Digest.evp_state) :
  (forall m, Z.of_nat (length (md a m)) = expected) ->
  all_succeed st ->
  0 <= len <= Z.of_nat (length data1) ->
  Z.of_nat (length data1) < SIZE_MOD ->
  Digest.spans_ok args ->
  expected <= Z.of_nat (length hash) ->
  exists st',
    Digest.digest_shape md a expected (Some hash) (Some data1) len args st
    = Ok (true,
          Some (md a (take (Z.to_nat len) data1 ++ Digest.spans_data args)
                ++ drop (Z.to_nat expected) hash), st')
    /\ Digest.live st' = Digest.live st
    /\ Digest.logged st' = Digest.logged st.
Proof.
  intros Hmd Hs Hlen Hsz Hok Hb. unfold Digest.digest_shape.
  destruct (digest_init_succeeds a st Hs) as (st0 & E0 & Hs0 & Hl0 & Hg0).
  rewrite E0. rewrite size_wrap_small by lia.
  destruct (digest_update_succeeds
              {| Digest.algo := a; Digest.absorbed := [] |}
              data1 len st0 Hs0 Hlen)
    as (st1 & E1 & Hs1 & Hl1 & Hg1).
  rewrite E1. cbn [bind Digest.algo Digest.absorbed app].
  destruct (digest_va_loop_succeeds args
              {| Digest.algo := a;
                 Digest.absorbed := take (Z.to_nat len) data1 |}
              st1 Hs1 Hok)
    as (st2 & E2 & Hs2 & Hl2 & Hg2).
  rewrite E2. cbn [bind Digest.algo Digest.absorbed].
  destruct (digest_final_succeeds md
              {| Digest.algo := a;
                 Digest.absorbed := take (Z.to_nat len) data1
                                    ++ Digest.spans_data args |}
              hash expected st2 Hs2 (Hmd _) Hb) as (st3 & E3 & Hl3 & Hg3).
  cbn [Digest.algo Digest.absorbed] in E3. rewrite E3.
  exists st3. split; [reflexivity|]. split; lia.
Qed.

(** X8: when no OpenSSL call fails and every span lies inside its buffer,
    [tr_sha1] returns [true] and has stored, in the first 20 bytes of
    [hash], the SHA-1 digest of the concatenation of its spans, in argument
    order up to the closing [NULL]; the bytes of [hash] after the digest
    are untouched, and no context stays alive and nothing is logged.
    [tr_md5] does the same with the 16 bytes of the MD5 digest. *)
Theorem digest_of_concatenated_spans
    (md : Digest.digest_algo -> list byte -> list byte)
    (hash data1 : list byte) (data1_length : Z)
    (args : list (option (list byte) * Z)) (st : Digest.evp_state)
    (Hsha1 : forall m, length (md Digest.EVP_sha1 m) = 20%nat)
    (Hmd5 : forall m, length (md Digest.EVP_md5 m) = 16%nat)
    (Hcalls : Forall (fun r => r = 1) (Digest.results st))
    (Hlen : 0 <= data1_length <= Z.of_nat (length data1))
    (Hsize : Z.of_nat (length data1) < SIZE_MOD)
    (Hspans : Digest.spans_ok args) :
  let data := take (Z.to_nat data1_length) data1 ++ Digest.spans_data args in
  ((20 <= length hash)%nat ->
   exists st',
     Digest.tr_sha1 md (Some hash) (Some data1) data1_length args st
     = Ok (true, Some (md Digest.EVP_sha1 data ++ drop 20 hash), st')
     /\ Digest.live st' = Digest.live st
     /\ Digest.logged st' = Digest.logged st)
  /\ ((16 <= length hash)%nat ->
      exists st',
        Digest.tr_md5 md (Some hash) (Some data1) data1_length args st
        = Ok (true, Some (md Digest.EVP_md5 data ++ drop 16 hash), st')
        /\ Digest.live st' = Digest.live st
        /\ Digest.logged st' = Digest.logged st).
Proof.
  intros data. rewrite tr_sha1_shape, tr_md5_shape. split; intros Hb.
  - apply (digest_shape_succeeds md Digest.EVP_sha1 SHA_DIGEST_LENGTH);
      try assumption.
    + intros m. rewrite Hsha1. reflexivity.
    + unfold SHA_DIGEST_LENGTH. lia.
  - apply (digest_shape_succeeds md Digest.EVP_md5 Digest.MD5_DIGEST_LENGTH);
      try assumption.
    + intros m. rewrite Hmd5. reflexivity.
    + unfold Digest.MD5_DIGEST_LENGTH. lia.
Qed.

Lemma digest_va_loop_drop_empty (args : list (option (list byte) * Z)) :
  forall h st,
  Digest.sha1_va_loop (Some h) (Digest.drop_empty args) st
  = Digest.sha1_va_loop (Some h) args st.
Proof.
  induction args as [|[[d|] len] args IH]; intros h st;
    cbn [Digest.drop_empty]; [reflexivity| |reflexivity].
  destruct (len =? 0) eqn:E0.
  - apply Z.eqb_eq in E0. subst len. rewrite IH. reflexivity.
  - cbn [Digest.sha1_va_loop].
    destruct (negb (0 <=? len)); [reflexivity|].
    destruct (Digest.tr_sha1_update (Some h) (Some d) len st)
      as [[[ok sha] st1]| | |] eqn:E; cbn [bind]; [|reflexivity..].
    destruct ok; [|reflexivity].
    apply digest_update_state in E. destruct E as (_ & _ & h1 & -> & _).
    apply IH.
Qed.

Lemma digest_shape_drop_empty
    (md : Digest.digest_algo -> list byte -> list byte)
    (a : Digest.digest_algo) (expected : Z)
    (hash data1 : option (list byte)) (len : Z)
    (args : list (option (list byte) * Z)) (st : Digest.evp_state) :
  Digest.digest_shape md a expected hash data1 len (Digest.drop_empty args) st
  = Digest.digest_shape md a expected hash data1 len args st.
Proof.
  unfold Digest.digest_shape.
  destruct (Digest.openssl_evp_digest_context_init a st) as [[h|] st0];
    [|reflexivity].
  destruct (Digest.openssl_evp_digest_context_update (Some h) data1
              (size_wrap len) st0) as [[[ok ctx] st1]| | |] eqn:Eu;
    [|reflexivity..].
  apply digest_update_state in Eu. destruct Eu as (_ & _ & h1 & -> & _).
  cbn [bind]. destruct ok; [|reflexivity].
  rewrite digest_va_loop_drop_empty. reflexivity.
Qed.

(** X9: a span of length zero among the variable arguments of [tr_sha1]
    or [tr_md5] is skipped without a call of OpenSSL: leaving such spans
    out of the argument list changes neither the return value, nor the
    digest stored, nor the failures that are met and logged. *)
Theorem digest_skips_empty_spans
    (md : Digest.digest_algo -> list byte -> list byte)
    (hash data1 : option (list byte)) (data1_length : Z)
    (args : list (option (list byte) * Z)) (st : Digest.evp_state) :
  Digest.tr_sha1 md hash data1 data1_length (Digest.drop_empty args) st
  = Digest.tr_sha1 md hash data1 data1_length args st
  /\ Digest.tr_md5 md hash data1 data1_length (Digest.drop_empty args) st
     = Digest.tr_md5 md hash data1 data1_length args st.
Proof.
  rewrite tr_sha1_shape, tr_md5_shape.
  split; apply digest_shape_drop_empty.
Qed.

Lemma digest_shape_negative_first
    (md : Digest.digest_algo -> list byte -> list byte)
    (a : Digest.digest_algo) (expected : Z)
    (hash : option (list byte)) (data1 : list byte) (len : Z)
    (args : list (option (list byte) * Z)) (st : Digest.evp_state) :
  all_succeed st ->
  INT_MIN <= len < 0 ->
  Z.of_nat (length data1) < SIZE_MOD + INT_MIN ->
  Digest.digest_shape md a expected hash (Some data1) len args st = Fault.
Proof.
  intros Hs Hlen Hsz. unfold Digest.digest_shape.
  destruct (digest_init_succeeds a st Hs) as (st0 & E0 & _).
  rewrite E0. unfold Digest.openssl_evp_digest_context_update.
  assert (Hw : size_wrap len = SIZE_MOD + len).
  { unfold size_wrap, SIZE_MOD, SIZE_BITS, INT_MIN in *.
    change (2 ^ 64) with 18446744073709551616 in *.
    change (2 ^ 31) with 2147483648 in *. zlia. }
  rewrite Hw.
  replace (SIZE_MOD + len =? 0) with false.
  2:{ symmetry. apply Z.eqb_neq. unfold SIZE_MOD, SIZE_BITS, INT_MIN in *.
      change (2 ^ 64) with 18446744073709551616 in *.
      change (2 ^ 31) with 2147483648 in *. lia. }
  unfold read_bytes.
  replace (0 + (SIZE_MOD + len) <=? Z.of_nat (length data1)) with false.
  2:{ symmetry. apply Z.leb_gt. lia. }
  rewrite andb_false_r. reflexivity.
Qed.

Lemma digest_shape_negative_later
    (md : Digest.digest_algo -> list byte -> list byte)
    (a : Digest.digest_algo) (expected : Z)
    (hash : option (list byte)) (data1 data : list byte) (len1 len : Z)
    (args : list (option (list byte) * Z)) (st : Digest.evp_state) :
  all_succeed st ->
  0 <= len1 <= Z.of_nat (length data1) ->
  Z.of_nat (length data1) < SIZE_MOD ->
  len < 0 ->
  Digest.digest_shape md a expected hash (Some data1) len1
    ((Some data, len) :: args) st = AssertFail.
Proof.
  intros Hs Hlen Hsz Hneg. unfold Digest.digest_shape.
  destruct (digest_init_succeeds a st Hs) as (st0 & E0 & Hs0 & _).
  rewrite E0. rewrite size_wrap_small by lia.
  destruct (digest_update_succeeds
              {| Digest.algo := a; Digest.absorbed := [] |}
              data1 len1 st0 Hs0 Hlen) as (st1 & E1 & _).
  rewrite E1. cbn [bind Digest.sha1_va_loop].
  replace (0 <=? len) with false by (symmetry; apply Z.leb_gt; lia).
  reflexivity.
Qed.

(** X10: the lengths of the spans are [int]s, and only those of the
    variable arguments are asserted to be non-negative.  With OpenSSL
    succeeding, a negative length of a later span stops [tr_sha1] and
    [tr_md5] at the assertion, while a negative [data1_length] is converted
    to a [size_t] close to [2^64], so that the first update reads far
    beyond [data1]. *)
Theorem digest_negative_span_length
    (md : Digest.digest_algo -> list byte -> list byte)
    (hash : option (list byte)) (data1 data : list byte)
    (data1_length data_length : Z)
    (args : list (option (list byte) * Z)) (st : Digest.evp_state)
    (Hcalls : Forall (fun r => r = 1) (Digest.results st))
    (Hsize : Z.of_nat (length data1) < SIZE_MOD + INT_MIN)
    (Hneg : INT_MIN <= data_length < 0) :
  (Digest.tr_sha1 md hash (Some data1) data_length args st = Fault
   /\ Digest.tr_md5 md hash (Some data1) data_length args st = Fault)
  /\ (0 <= data1_length <= Z.of_nat (length data1) ->
      Digest.tr_sha1 md hash (Some data1) data1_length
        ((Some data, data_length) :: args) st = AssertFail
      /\ Digest.tr_md5 md hash (Some data1) data1_length
           ((Some data, data_length) :: args) st = AssertFail).
Proof.
  assert (Hlt : SIZE_MOD + INT_MIN < SIZE_MOD) by (vm_compute; reflexivity).
  rewrite tr_sha1_shape, tr_md5_shape. split; [split|intros Hlen; split].
  - apply digest_shape_negative_first; assumption.
  - apply digest_shape_negative_first; assumption.
  - apply digest_shape_negative_later; try assumption; lia.
  - apply digest_shape_negative_later; try assumption; lia.
Qed.

(** The digest function the salted-digest functions are stated with is
    this [tr_sha1] on two spans, when no OpenSSL call fails. *)
Lemma tr_sha1_two_spans (md : Digest.digest_algo -> list byte -> list byte)
    (hash data1 data2 : list byte) (data1_length data2_length : Z)
    (st : Digest.evp_state) :
  (forall m, length (md Digest.EVP_sha1 m) = 20%nat) ->
  all_succeed st ->
  0 <= data1_length <= Z.of_nat (length data1) ->
  Z.of_nat (length data1) < SIZE_MOD ->
  0 <= data2_length <= Z.of_nat (length data2) ->
  (20 <= length hash)%nat ->
  exists (sha : list byte) (st' : Digest.evp_state),
    tr_sha1 (md Digest.EVP_sha1) data1 data1_length data2 data2_length
    = Ok sha
    /\ Digest.tr_sha1 md (Some hash) (Some data1) data1_length
         [(Some data2, data2_length)] st
       = Ok (true, Some (sha ++ drop 20 hash), st').
Proof.
  intros Hmd Hs H1 Hsz H2 Hb.
  destruct (digest_shape_succeeds md Digest.EVP_sha1 SHA_DIGEST_LENGTH
              hash data1 data1_length [(Some data2, data2_length)] st)
    as (st' & E & _); try assumption.
  - intros m. rewrite Hmd. reflexivity.
  - cbn [Digest.spans_ok]. auto.
  - unfold SHA_DIGEST_LENGTH. lia.
  - eexists. exists st'. split.
    + unfold tr_sha1. rewrite !read_bytes_ok by lia. cbn [bind].
      change (Z.to_nat 0) with 0%nat. rewrite !drop_0. reflexivity.
    + rewrite tr_sha1_shape, E. cbn [Digest.spans_data].
      rewrite app_nil_r. reflexivity.
Qed.

Lemma digest_context_is_released_witness :
  exists hash' st',
    Digest.tr_sha1 sample_md (Some (replicate 20 xff)) (Some [x61; x62]) 2
      [(Some [x63; x64], 1)]
      {| Digest.results := [1; 1; 0]; Digest.live := 0; Digest.logged := 0 |}
    = Ok (false, hash', st')
    /\ Digest.live st' = 0 /\ Digest.logged st' = 1.
Proof.
  eexists. eexists.
  assert (E : Digest.tr_sha1 sample_md (Some (replicate 20 xff))
                (Some [x61; x62]) 2 [(Some [x63; x64], 1)]
                {| Digest.results := [1; 1; 0]; Digest.live := 0;
                   Digest.logged := 0 |}
              = Ok (false, Some (replicate 20 xff),
                    {| Digest.results := []; Digest.live := 0;
                       Digest.logged := 1 |}))
    by (vm_compute; reflexivity).
  split; [exact E|].
  exact (proj1 (digest_context_is_released sample_md
                  (Some (replicate 20 xff)) (Some [x61; x62]) 2
                  [(Some [x63; x64], 1)]
                  {| Digest.results := [1; 1; 0]; Digest.live := 0;
                     Digest.logged := 0 |}
                  {| Digest.results := []; Digest.live := 0;
                     Digest.logged := 1 |}
                  false (Some (replicate 20 xff))) E).
Defined.

Lemma sample_md_sha1_length (m : list byte) :
  length (sample_md Digest.EVP_sha1 m) = 20%nat.
Proof. apply sha1_ref_length. Qed.

Lemma sample_md_md5_length (m : list byte) :
  length (sample_md Digest.EVP_md5 m) = 16%nat.
Proof.
  cbn [sample_md]. rewrite length_take, sha1_ref_length. reflexivity.
Qed.

Lemma digest_of_concatenated_spans_witness :
  exists st',
    Digest.tr_sha1 sample_md (Some (replicate 22 xff))
      (Some [x61; x62; x00]) 1
      [(Some [x62; x63; x64], 2); (None, 0); (Some [x65], 1)]
      {| Digest.results := [1; 1]; Digest.live := 0; Digest.logged := 0 |}
    = Ok (true,
          Some (sample_md Digest.EVP_sha1
                  (take (Z.to_nat 1) [x61; x62; x00]
                   ++ Digest.spans_data
                        [(Some [x62; x63; x64], 2); (None, 0);
                         (Some [x65], 1)])
                ++ drop 20 (replicate 22 xff)), st')
    /\ Digest.live st' = 0 /\ Digest.logged st' = 0.
Proof.
  assert (H1 : Forall (fun r => r = 1) [1; 1]) by (repeat constructor).
  assert (H2 : 0 <= 1 <= Z.of_nat (length [x61; x62; x00]))
    by (cbn [length]; lia).
  assert (H3 : Z.of_nat (length [x61; x62; x00]) < SIZE_MOD)
    by (vm_compute; reflexivity).
  assert (H4 : Digest.spans_ok
                 [(Some [x62; x63; x64], 2); (None, 0); (Some [x65], 1)])
    by (cbn [Digest.spans_ok length]; lia).
  assert (H5 : (20 <= length (replicate 22 xff))%nat)
    by (cbn [length replicate]; lia).
  exact (proj1 (digest_of_concatenated_spans sample_md (replicate 22 xff)
                  [x61; x62; x00] 1
                  [(Some [x62; x63; x64], 2); (None, 0); (Some [x65], 1)]
                  {| Digest.results := [1; 1]; Digest.live := 0;
                     Digest.logged := 0 |}
                  sample_md_sha1_length sample_md_md5_length
                  H1 H2 H3 H4) H5).
Defined.

Lemma digest_negative_span_length_witness :
  Digest.tr_sha1 sample_md None (Some [x61; x62]) (-1) [] 
    {| Digest.results := []; Digest.live := 0; Digest.logged := 0 |}
  = Fault
  /\ Digest.tr_sha1 sample_md None (Some [x61; x62]) 2 [(Some [x63], -1)]
       {| Digest.results := []; Digest.live := 0; Digest.logged := 0 |}
     = AssertFail.
Proof.
  pose proof (digest_negative_span_length sample_md None [x61; x62] [x63]
                2 (-1) []
                {| Digest.results := []; Digest.live := 0;
                   Digest.logged := 0 |}
                ltac:(constructor) ltac:(vm_compute; reflexivity)
                ltac:(unfold INT_MIN; lia)) as [[H1 _] H2].
  split; [exact H1|].
  apply H2. cbn [length]. lia.
Defined.

(** ** More on tr_rand_int and tr_dh_make_key *)




(** X12: [tr_rand_int_weak] seeds the C library generator on its first
    call only.  Two calls in a row, the first with [init] still [false],
    return the first two values of the sequence seeded with the clock of
    the first call, reduced modulo their bounds; the clock at the second
    call plays no part, and [init] stays [true]. *)
Theorem rand_int_weak_seeds_once (srand : Z -> Z) (rand : Z -> Z * Z)
    (bound1 bound2 : Z) (st : rand_state) (clock2 : Z) :
  0 < bound1 -> 0 < bound2 -> init st = false ->
  let g0 := srand (clock st mod 2 ^ 32) in
  let g1 := snd (rand g0) in
  exists st1,
    tr_rand_int_weak srand rand bound1 st
    = Ok (Z.rem (fst (rand g0)) bound1, st1)
    /\ tr_rand_int_weak srand rand bound2
         {| strong := strong st1; init := init st1;
            libc_gen := libc_gen st1; clock := clock2 |}
       = Ok (Z.rem (fst (rand g1)) bound2,
             {| strong := strong st; init := true;
                libc_gen := snd (rand g1); clock := clock2 |}).
Proof.
  intros H1 H2 Hi g0 g1. unfold tr_rand_int_weak.
  replace (0 <? bound1) with true by (symmetry; apply Z.ltb_lt; lia).
  replace (0 <? bound2) with true by (symmetry; apply Z.ltb_lt; lia).
  cbn [negb]. rewrite Hi. fold g0.
  destruct (rand g0) as [r0 g1'] eqn:E0. subst g1. cbn [fst snd].
  eexists. split; [reflexivity|]. cbn [init libc_gen strong clock].
  destruct (rand g1') as [r1 g2]. reflexivity.
Qed.

Lemma rand_int_weak_seeds_once_witness :
  exists st1,
    tr_rand_int_weak srand_ref rand_ref 6
      {| strong := []; init := false; libc_gen := 7; clock := 1234 |}
    = Ok (Z.rem (fst (rand_ref (srand_ref (1234 mod 2 ^ 32)))) 6, st1)
    /\ tr_rand_int_weak srand_ref rand_ref 10
         {| strong := strong st1; init := init st1;
            libc_gen := libc_gen st1; clock := 99 |}
       = Ok (Z.rem (fst (rand_ref
                           (snd (rand_ref (srand_ref (1234 mod 2 ^ 32))))))
               10,
             {| strong := []; init := true;
                libc_gen := snd (rand_ref
                                   (snd (rand_ref
                                           (srand_ref (1234 mod 2 ^ 32)))));
                clock := 99 |}).
Proof.
  apply (rand_int_weak_seeds_once srand_ref rand_ref 6 10
           {| strong := []; init := false; libc_gen := 7; clock := 1234 |}
           99).
  - lia.
  - lia.
  - reflexivity.
Defined.

(** X13: [tr_dh_make_key].  When [DH_generate_key] fails it returns
    [false] and writes nothing.  Otherwise, for a key of at most
    [dh_size] bytes and a buffer of at least [dh_size] bytes, it returns
    [true], reports [dh_size] as the length when asked for one, and the
    first [dh_size] bytes of [public_key] are the key behind zero bytes:
    they hold the same big-endian number as the generated key, and the
    bytes behind them are untouched.  A key of more than [dh_size] bytes
    stops at the assertion of [tr_dh_align_key]. *)
Theorem dh_make_key_publishes_padded_key
    (my_public_key public_key : list byte)
    (dh_size : Z) (public_key_length : option Z) :
  Z.of_nat (length my_public_key) <= Z.of_nat (length public_key) ->
  dh_size <= Z.of_nat (length public_key) ->
  tr_dh_make_key None dh_size public_key public_key_length
  = Ok (false, public_key, public_key_length)
  /\ (dh_size < Z.of_nat (length my_public_key) ->
      tr_dh_make_key (Some my_public_key) dh_size public_key
        public_key_length = AssertFail)
  /\ (Z.of_nat (length my_public_key) <= dh_size ->
      exists published,
        tr_dh_make_key (Some my_public_key) dh_size public_key
          public_key_length
        = Ok (true, published,
              match public_key_length with
              | Some _ => Some dh_size
              | None => None
              end)
        /\ length published = length public_key
        /\ take (Z.to_nat dh_size) published
           = replicate (Z.to_nat dh_size - length my_public_key) x00
             ++ my_public_key
        /\ be_value (take (Z.to_nat dh_size) published)
           = be_value my_public_key
        /\ drop (Z.to_nat dh_size) published
           = drop (Z.to_nat dh_size) public_key).
Proof.
  intros Hfit Hd. split; [reflexivity|]. split.
  - intros Hbig. unfold tr_dh_make_key.
    rewrite write_bytes_ok by lia. cbn [bind]. unfold tr_dh_align_key.
    replace (Z.of_nat (length my_public_key) <=? dh_size) with false
      by (symmetry; apply Z.leb_gt; lia).
    reflexivity.
  - intros Hk. eexists. split.
    + rewrite tr_dh_make_key_aligned by assumption.
      destruct public_key_length; reflexivity.
    + set (z := replicate (Z.to_nat dh_size - length my_public_key) x00).
      assert (Hz : length z = (Z.to_nat dh_size - length my_public_key)%nat)
        by apply length_replicate.
      assert (Hzk : length (z ++ my_public_key) = Z.to_nat dh_size)
        by (rewrite length_app; lia).
      rewrite app_assoc. repeat split.
      * rewrite length_app, length_drop. lia.
      * rewrite <- Hzk. apply take_app_length.
      * rewrite <- Hzk, take_app_length. apply be_value_zeros.
      * rewrite <- Hzk at 1. apply drop_app_length.
Qed.

Lemma dh_make_key_publishes_padded_key_witness :
  exists published,
    tr_dh_make_key (Some [x12; x34]) 4 [xaa; xbb; xcc; xdd; xee] (Some 0)
    = Ok (true, published, Some 4)
    /\ length published = 5%nat
    /\ take (Z.to_nat 4) published
       = replicate (Z.to_nat 4 - length [x12; x34]) x00 ++ [x12; x34]
    /\ be_value (take (Z.to_nat 4) published) = be_value [x12; x34]
    /\ drop (Z.to_nat 4) published
       = drop (Z.to_nat 4) [xaa; xbb; xcc; xdd; xee].
Proof.
  assert (H1 : Z.of_nat (length [x12; x34])
               <= Z.of_nat (length [xaa; xbb; xcc; xdd; xee]))
    by (cbn [length]; lia).
  assert (H2 : 4 <= Z.of_nat (length [xaa; xbb; xcc; xdd; xee]))
    by (cbn [length]; lia).
  assert (H3 : Z.of_nat (length [x12; x34]) <= 4) by (cbn [length]; lia).
  exact (proj2 (proj2 (dh_make_key_publishes_padded_key [x12; x34]
                         [xaa; xbb; xcc; xdd; xee] 4 (Some 0) H1 H2)) H3).
Defined.
